(** * postcss-plugin-split-chunks: the partitioner of [src/index.js]

    A shallow embedding of the [Once] visitor of the plugin: the chunk
    builder ([startNewChunk]), the recursive placement procedure
    ([addNode]) and the driver ([Once]), followed by the properties of
    the partitioning that the specification states.

    The PostCSS node classes and the stringifier are library code.  The
    tree is modelled by the fields the plugin reads ([type], [selectors],
    [name], [params], [nodes]); the byte length of a node's serialisation
    is a parameter of the development, instantiated for the examples by
    the serialiser of minified text. *)

From Stdlib Require Import List String Ascii Arith Lia Bool DecimalString.
Import ListNotations.
Local Open Scope string_scope.
Local Open Scope list_scope.
Local Open Scope nat_scope.

Set Warnings "-register-all".

(** ** The syntax tree *)

(** A PostCSS node.  [node.nodes] is an array for a rule, and for an
    at-rule it is an array when the at-rule has a block ([@media x {}])
    and [undefined] when it is a statement ([@import url(a);]). *)
Inductive node : Type :=
| Rule (selectors : list string) (nodes : list node)
| AtRule (name params : string) (nodes : option (list node))
| Decl (prop value : string)
| Comment (text : string).

(** A root (the input stylesheet, or a chunk under construction) is the
    array of its children. *)
Definition root : Type := list node.

(** Induction over the tree, with the hypothesis for every child. *)
Section NodeInduction.
Variable P : node -> Prop.
Hypothesis case_rule : forall sels ks, Forall P ks -> P (Rule sels ks).
Hypothesis case_block : forall nm pr ks, Forall P ks -> P (AtRule nm pr (Some ks)).
Hypothesis case_statement : forall nm pr, P (AtRule nm pr None).
Hypothesis case_decl : forall p v, P (Decl p v).
Hypothesis case_comment : forall t, P (Comment t).

Fixpoint node_nested_ind (n : node) : P n :=
  let all :=
    fix all (ks : list node) : Forall P ks :=
      match ks with
      | [] => Forall_nil P
      | k :: ks' => Forall_cons k (node_nested_ind k) (all ks')
      end in
  match n with
  | Rule sels ks => case_rule sels ks (all ks)
  | AtRule nm pr (Some ks) => case_block nm pr ks (all ks)
  | AtRule nm pr None => case_statement nm pr
  | Decl p v => case_decl p v
  | Comment t => case_comment t
  end.
End NodeInduction.

(** [node.clone()]: a deep copy.  Trees are values here, so the copy is
    the tree itself. *)
Definition clone (n : node) : node := n.

(** [at.clone({ nodes: [] })] for an at-rule [at], and the same at-rule
    with a given array of children. *)
Definition withNodes (p : node) (ks : list node) : node :=
  match p with
  | AtRule nm pr _ => AtRule nm pr (Some ks)
  | Rule sels _ => Rule sels ks
  | other => other
  end.

Definition shellOf (p : node) : node := withNodes p [].

(** ** Warnings *)

(** What [node.warn(result, text)] records: the node and the parts of the
    message text. *)
Record warning : Type := mkWarning {
  warn_node : node;
  warn_identifier : string;
  warn_nodeSize : nat;
  warn_limit : nat
}.

Definition decimal (n : nat) : string := NilZero.string_of_uint (Nat.to_uint n).

(** The template literal of the message. *)
Definition warning_text (w : warning) : string :=
  (warn_identifier w ++ " has an estimated size of " ++ decimal (warn_nodeSize w)
    ++ " bytes, exceeding the " ++ decimal (warn_limit w)
    ++ " byte limit and cannot be split.")%string.

(** [node.type === "rule" ? `starting with selector '${node.selectors[0]}'`
                          : `@-rule '@${node.name}'`]; a missing property
    prints as [undefined]. *)
Definition identifier (n : node) : string :=
  match n with
  | Rule sels _ => ("starting with selector '" ++ hd "undefined" sels ++ "'")%string
  | AtRule nm _ _ => ("@-rule '@" ++ nm ++ "'")%string
  | _ => "@-rule '@undefined'"
  end.

(** ** The chunk builder state *)

(** The variables of [Once] that [startNewChunk] and [addNode] close
    over.  [warnings] is the list [node.warn] appends to; [visited] is a
    history variable that the program never reads: the arguments of the
    calls of [addNode], in call order. *)
Record state : Type := mkState {
  finalChunks : list root;
  currentChunk : root;
  currentChunkSize : nat;
  warnings : list warning;
  visited : list node
}.

Definition initialState : state :=
  {| finalChunks := []; currentChunk := []; currentChunkSize := 0;
     warnings := []; visited := [] |}.

Definition startNewChunk (st : state) : state :=
  {| finalChunks :=
       if 0 <? List.length (currentChunk st)
       then finalChunks st ++ [currentChunk st]
       else finalChunks st;
     currentChunk := [];
     currentChunkSize := 0;
     warnings := warnings st;
     visited := visited st |}.

(** A small error monad: [None] is an uncaught [TypeError]. *)
Definition bind {A B : Type} (m : option A) (f : A -> option B) : option B :=
  match m with
  | Some a => f a
  | None => None
  end.

Notation "x <- m ;; k" := (bind m (fun x => k))
  (at level 61, m at next level, right associativity).
Notation "' pat <- m ;; k" := (bind m (fun x => match x with pat => k end))
  (at level 61, pat pattern, m at next level, right associativity).

(** [arr.forEach(f)] for a callback that updates the state and may throw. *)
Fixpoint forEach {A S : Type} (f : A -> S -> option S) (arr : list A) (st : S)
  : option S :=
  match arr with
  | [] => Some st
  | x :: rest => st' <- f x st ;; forEach f rest st'
  end.

(** The array without its last element, and that element ([container.last]). *)
Fixpoint unsnoc {A : Type} (l : list A) : option (list A * A) :=
  match l with
  | [] => None
  | x :: rest =>
      match unsnoc rest with
      | None => Some ([], x)
      | Some (init, z) => Some (x :: init, z)
      end
  end.

(** ** The partitioner *)

Definition nonSplittableAtRules : list string :=
  ["keyframes"; "font-face"; "page"; "counter-style"].

Definition includes (l : list string) (s : string) : bool :=
  existsb (String.eqb s) l.

(** [child.type === "rule" ||
     (child.type === "atrule" && child.nodes && child.nodes.length > 0)] *)
Definition isActualContent (child : node) : bool :=
  match child with
  | Rule _ _ => true
  | AtRule _ _ (Some ks) => 0 <? List.length ks
  | _ => false
  end.

Definition hasActualContent (kids : list node) : bool :=
  existsb isActualContent kids.

(** [lastNode.type === "atrule" && lastNode.name === parentAtRule.name &&
     lastNode.params === parentAtRule.params] *)
Definition sameAtRule (lastNode parentAtRule : node) : bool :=
  match lastNode, parentAtRule with
  | AtRule nm pr _, AtRule nm' pr' _ => String.eqb nm nm' && String.eqb pr pr'
  | _, _ => false
  end.

Section Partitioner.

(** [Buffer.byteLength(n.toString(), "utf8")] *)
Variable byteLength : node -> nat.

(** The atomic branch: one new shell per at-rule of the chain, each
    appended to the previous one, and the node in the innermost.
    Returns the outermost appended node and the bytes of the shells. *)
Fixpoint wrapFresh (parentChain : list node) (n : node) : node * nat :=
  match parentChain with
  | [] => (n, 0)
  | parentAtRule :: rest =>
      let (inner, d) := wrapFresh rest n in
      (withNodes parentAtRule [inner], byteLength (shellOf parentAtRule) + d)
  end.

(** The normal flow's loop over [parentChain], on the children [kids]
    of [currentParent]: at each level the last child is taken when it
    is an at-rule of the same name and parameters, and a new shell is
    appended otherwise; the node goes into the innermost.  Returns the
    new children and the bytes of the new shells.  An at-rule statement
    taken as existing shell has no [nodes]: the next iteration reads
    [currentParent.nodes.length] and throws, while the final
    [currentParent.append] gives it a block. *)
Fixpoint appendUnder (parentChain : list node) (n : node) (kids : list node)
  : option (list node * nat) :=
  match parentChain with
  | [] => Some (kids ++ [n], 0)
  | parentAtRule :: rest =>
      let newShell :=
        '(ks', d) <- appendUnder rest n [] ;;
        Some (kids ++ [withNodes parentAtRule ks'],
              byteLength (shellOf parentAtRule) + d) in
      match unsnoc kids with
      | Some (init, AtRule nm pr body as lastNode) =>
          if sameAtRule lastNode parentAtRule then
            match body, rest with
            | None, _ :: _ => None
            | None, [] => Some (init ++ [AtRule nm pr (Some [n])], 0)
            | Some ks, _ =>
                '(ks', d) <- appendUnder rest n ks ;;
                Some (init ++ [AtRule nm pr (Some ks')], d)
            end
          else newShell
      | _ => newShell
      end
  end.

(** [node.warn(result, ...)] under [if (size && nodeSize > size)]. *)
Definition warnOversize (size : nat) (n : node) (st : state) : state :=
  if negb (size =? 0) && (size <? byteLength n) then
    {| finalChunks := finalChunks st; currentChunk := currentChunk st;
       currentChunkSize := currentChunkSize st;
       warnings := warnings st ++ [mkWarning n (identifier n) (byteLength n) size];
       visited := visited st |}
  else st.

Definition logVisit (n : node) (st : state) : state :=
  {| finalChunks := finalChunks st; currentChunk := currentChunk st;
     currentChunkSize := currentChunkSize st; warnings := warnings st;
     visited := visited st ++ [n] |}.

(** Replace the chunk under construction and its running size. *)
Definition setChunk (st : state) (chunk : root) (sz : nat) : state :=
  {| finalChunks := finalChunks st; currentChunk := chunk;
     currentChunkSize := sz; warnings := warnings st;
     visited := visited st |}.

(** The branch for an at-rule of [nonSplittableAtRules]. *)
Definition placeAtomic (n : node) (parentChain : list node) (st : state) : state :=
  let st := if 0 <? List.length (currentChunk st) then startNewChunk st else st in
  if 0 <? List.length parentChain then
    let (outer, d) := wrapFresh parentChain (clone n) in
    setChunk st (currentChunk st ++ [outer])
             (currentChunkSize st + d + byteLength n)
  else
    setChunk st (currentChunk st ++ [clone n])
             (currentChunkSize st + byteLength n).

(** The branch [if (!hasActualContent)]; [parentShell] is [null], so
    [targetParent] is [currentChunk]. *)
Definition placeOpaque (n : node) (st : state) : state :=
  setChunk st (currentChunk st ++ [clone n])
           (currentChunkSize st + byteLength n).

(** The normal flow, from [if (size && projectedSize > size && ...)]
    to the end of [addNode]. *)
Definition placeNormal (size : nat) (n : node) (parentChain : list node)
           (projectedSize : nat) (st : state) : option state :=
  let st :=
    if negb (size =? 0) && (size <? projectedSize)
       && (0 <? List.length (currentChunk st))
    then startNewChunk st else st in
  if 0 <? List.length parentChain then
    '(chunk, d) <- appendUnder parentChain (clone n) (currentChunk st) ;;
    Some (setChunk st chunk (currentChunkSize st + d + byteLength n))
  else
    Some (setChunk st (currentChunk st ++ [clone n])
                   (currentChunkSize st + byteLength n)).

(** [addNode(node, parentShell, parentChain)].  [parentShell] is [null]
    at the call in [Once] and is passed on unchanged by the recursive
    call, so it is [null] in every call and is left out. *)
Fixpoint addNode (size : nat) (n : node) (parentChain : list node)
         (st : state) {struct n} : option state :=
  let nodeSize := byteLength n in
  let st := warnOversize size n (logVisit n st) in
  let projectedSize := currentChunkSize st + nodeSize in
  match n with
  | AtRule name _ (Some kids) =>
      if (0 <? List.length kids) && negb (size =? 0) && (size <? projectedSize)
      then
        if includes nonSplittableAtRules name then
          Some (placeAtomic n parentChain st)
        else if negb (hasActualContent kids) then
          Some (placeOpaque n st)
        else
          let newParentChain := parentChain ++ [n] in
          forEach (fun child st => addNode size child newParentChain st) kids st
      else placeNormal size n parentChain projectedSize st
  | _ => placeNormal size n parentChain projectedSize st
  end.

(** The four ways a call of [addNode] ends. *)
Inductive outcome (size : nat) (n : node) (parentChain : list node)
          (st1 st' : state) : Prop :=
| out_atomic nm pr kids :
    n = AtRule nm pr (Some kids) ->
    includes nonSplittableAtRules nm = true ->
    st' = placeAtomic n parentChain st1 ->
    outcome size n parentChain st1 st'
| out_opaque nm pr kids :
    n = AtRule nm pr (Some kids) ->
    includes nonSplittableAtRules nm = false ->
    hasActualContent kids = false ->
    size <> 0 -> size < currentChunkSize st1 + byteLength n ->
    kids <> [] ->
    st' = placeOpaque n st1 ->
    outcome size n parentChain st1 st'
| out_split nm pr kids :
    n = AtRule nm pr (Some kids) ->
    includes nonSplittableAtRules nm = false ->
    hasActualContent kids = true ->
    size <> 0 -> size < currentChunkSize st1 + byteLength n ->
    forEach (fun child st => addNode size child (parentChain ++ [n]) st)
            kids st1 = Some st' ->
    outcome size n parentChain st1 st'
| out_normal :
    (forall nm pr kids,
        n = AtRule nm pr (Some kids) ->
        kids = [] \/ size = 0 \/ currentChunkSize st1 + byteLength n <= size) ->
    placeNormal size n parentChain
                (currentChunkSize st1 + byteLength n) st1 = Some st' ->
    outcome size n parentChain st1 st'.

(** What [Once] leaves behind: [result.chunks] (the trees, before
    [toResult]), the warnings of [result], the children of the input
    root after the visitor returns, and the history of [addNode]
    calls. *)
Record result : Type := mkResult {
  chunks : list root;
  result_warnings : list warning;
  root_after : root;
  result_visited : list node
}.

(** [root.removeAll()] *)
Definition removeAll (r : root) : root := [].

Definition Once (size : nat) (input : root) : option result :=
  st <- forEach (fun n st => addNode size n [] st) input initialState ;;
  let st := startNewChunk st in
  Some {| chunks := finalChunks st;
          result_warnings := warnings st;
          root_after := removeAll input;
          result_visited := visited st |}.

End Partitioner.

(** [const { size = 400 * 1024 } = opts] *)
Definition sizeOption (opts : option nat) : nat :=
  match opts with
  | Some size => size
  | None => 400 * 1024
  end.

(** ** A serialiser for the examples

    The text PostCSS prints for a tree parsed from minified CSS (every
    whitespace raw empty, one space after an at-rule's name when it has
    parameters).  A declaration or an at-rule statement is followed by a
    semicolon when printed as a child before the last non-comment child;
    [node.toString()] itself prints none. *)
Fixpoint join (sep : string) (l : list string) : string :=
  match l with
  | [] => ""
  | [s] => s
  | s :: rest => (s ++ sep ++ join sep rest)%string
  end.

Definition isComment (n : node) : bool :=
  match n with Comment _ => true | _ => false end.

Definition atHeader (nm pr : string) : string :=
  ("@" ++ nm ++ (if String.eqb pr "" then "" else " " ++ pr))%string.

Fixpoint stringify (semicolon : bool) (n : node) : string :=
  let body :=
    fix body (ks : list node) : string :=
      match ks with
      | [] => ""
      | k :: ks' =>
          (stringify (existsb (fun c => negb (isComment c)) ks') k ++ body ks')%string
      end in
  match n with
  | Rule sels ks => (join "," sels ++ "{" ++ body ks ++ "}")%string
  | AtRule nm pr (Some ks) => (atHeader nm pr ++ "{" ++ body ks ++ "}")%string
  | AtRule nm pr None => (atHeader nm pr ++ (if semicolon then ";" else ""))%string
  | Decl p v => (p ++ ":" ++ v ++ (if semicolon then ";" else ""))%string
  | Comment t => ("/*" ++ t ++ "*/")%string
  end.

Fixpoint stringifyBody (ks : list node) : string :=
  match ks with
  | [] => ""
  | k :: ks' =>
      (stringify (existsb (fun c => negb (isComment c)) ks') k ++ stringifyBody ks')%string
  end.

Definition toString (n : node) : string := stringify false n.

(** [Buffer.byteLength(n.toString(), "utf8")] and the byte length of a
    whole root: a Rocq string is a sequence of bytes. *)
Definition minifiedByteLength (n : node) : nat := String.length (toString n).
Definition minifiedRootByteLength (r : root) : nat := String.length (stringifyBody r).

(** ** Reading the trees *)



(** What [addNode] puts on a parent chain: at-rules whose name is not in
    [nonSplittableAtRules]. *)
Definition chainable (p : node) : Prop :=
  match p with
  | AtRule nm _ _ => includes nonSplittableAtRules nm = false
  | _ => False
  end.

(** The last of [kids] is [n] under at-rules that match the chain, in
    order, by name and parameters. *)
Fixpoint nestedUnder (chain : list node) (n : node) (kids : list node) : Prop :=
  match chain with
  | [] => exists init, kids = init ++ [n]
  | p :: rest =>
      exists init nm pr ks,
        kids = init ++ [AtRule nm pr (Some ks)]
        /\ sameAtRule (AtRule nm pr (Some ks)) p = true
        /\ nestedUnder rest n ks
  end.

(** The leaf content of a tree in document order: the rules (with their
    selectors and declarations) and the other nodes without a block,
    found by reading through every at-rule block; a block with nothing
    in it contributes nothing. *)
Fixpoint leaves (n : node) : list node :=
  match n with
  | AtRule _ _ (Some ks) => flat_map leaves ks
  | _ => [n]
  end.

(** The units of a tree in document order: what is left when every
    at-rule block outside [nonSplittableAtRules] is read through; rules,
    declarations, comments, at-rule statements and atomic at-rules. *)
Fixpoint units (n : node) : list node :=
  match n with
  | AtRule nm _ (Some ks) =>
      if includes nonSplittableAtRules nm then [n] else flat_map units ks
  | _ => [n]
  end.

(** An at-rule that [addNode] would descend into when it overflows: it
    has a block, is not in [nonSplittableAtRules] and has actual
    content. *)
Definition splittable (n : node) : bool :=
  match n with
  | AtRule nm _ (Some kids) =>
      negb (includes nonSplittableAtRules nm) && hasActualContent kids
  | _ => false
  end.

(** An overflowing at-rule that [addNode] appends as it is, without
    starting a new chunk: it has children but no actual content. *)
Definition opaque (n : node) : bool :=
  match n with
  | AtRule nm _ (Some kids) =>
      (0 <? List.length kids) && negb (includes nonSplittableAtRules nm)
      && negb (hasActualContent kids)
  | _ => false
  end.

(** No node that [addNode] can visit is opaque: the node is not, and
    neither is any child of an at-rule block outside
    [nonSplittableAtRules]. *)
Fixpoint opaqueFree (n : node) : bool :=
  match n with
  | AtRule nm _ (Some kids) =>
      negb (opaque n)
      && (includes nonSplittableAtRules nm || forallb opaqueFree kids)
  | _ => true
  end.

(** Names are used consistently with respect to [blk]: an at-rule with a
    block has a name for which [blk] holds, an at-rule statement has one
    for which it does not (read through at-rule blocks). *)
Fixpoint disciplined (blk : string -> bool) (n : node) : bool :=
  match n with
  | AtRule nm _ (Some ks) => blk nm && forallb (disciplined blk) ks
  | AtRule nm _ None => negb (blk nm)
  | _ => true
  end.

(** An at-rule whose name [blk] accepts, as the parent chain holds them
    for a disciplined input. *)
Definition blockNamed (blk : string -> bool) (p : node) : Prop :=
  match p with
  | AtRule nm _ _ => blk nm = true
  | _ => False
  end.

(** The leaf content a state has placed so far. *)
Definition placedLeaves (st : state) : list node :=
  flat_map (flat_map leaves) (finalChunks st) ++ flat_map leaves (currentChunk st).

(** The chunks a state stands for: the finished ones, and the one
    under construction when it holds a node. *)
Definition chunkCount (st : state) : nat :=
  List.length (finalChunks st)
  + (if 0 <? List.length (currentChunk st) then 1 else 0).

(** Every chunk of a list holds at least one node. *)
Definition nonEmptyChunks (cs : list root) : Prop := Forall (fun c => c <> []) cs.

(** The run under the smaller limit [sa] is never behind the run under
    the larger limit [sb]: it stands for more chunks, or for as many with
    at least as many bytes in the chunk under construction. *)
Definition ahead (sa sb : state) : Prop :=
  (currentChunk sa = [] <-> currentChunk sb = [])
  /\ (currentChunk sa = [] -> currentChunkSize sa = 0)
  /\ (currentChunk sb = [] -> currentChunkSize sb = 0)
  /\ (chunkCount sb < chunkCount sa
      \/ (chunkCount sb = chunkCount sa
          /\ currentChunkSize sb <= currentChunkSize sa)).

(** ** Further readings of the trees and of the state *)

(** The leaf content other than at-rule statements: rules, declarations
    and comments, found by reading through every at-rule block. *)
Fixpoint solid (n : node) : list node :=
  match n with
  | AtRule _ _ (Some ks) => flat_map solid ks
  | AtRule _ _ None => []
  | _ => [n]
  end.

(** What a reading [f] of nodes finds in the chunks of a state. *)
Definition placedReading {X : Type} (f : node -> list X) (st : state) : list X :=
  flat_map (flat_map f) (finalChunks st) ++ flat_map f (currentChunk st).

(** The top-level nodes of the chunks of a state, in order. *)
Definition placedNodes (st : state) : list node :=
  List.concat (finalChunks st) ++ currentChunk st.

(** A bound on the calls of [addNode] a node can cause: one for the
    node, and those of its children when it can be descended into. *)
Fixpoint visitable (n : node) : nat :=
  match n with
  | AtRule nm _ (Some kids) =>
      1 + (if negb (includes nonSplittableAtRules nm) && hasActualContent kids
           then list_sum (map visitable kids) else 0)
  | _ => 1
  end.

(** [node.nodes], as far as [addNode] iterates over it. *)
Definition childrenOf (n : node) : list node :=
  match n with
  | AtRule _ _ (Some kids) => kids
  | _ => []
  end.

(** No at-rule block without children, read through at-rule blocks. *)
Fixpoint noEmptyBlock (n : node) : bool :=
  match n with
  | AtRule _ _ (Some ks) => (0 <? List.length ks) && forallb noEmptyBlock ks
  | _ => true
  end.

Section Estimates.

Variable byteLength : node -> nat.

(** The warning of [addNode] for a node, and whether the node's size
    exceeds the limit. *)
Definition oversizeWarning (size : nat) (n : node) : warning :=
  mkWarning n (identifier n) (byteLength n) size.

Definition exceeds (size : nat) (n : node) : bool := size <? byteLength n.

(** The warnings expected after the calls [vis] of [addNode]: one for
    each call whose node exceeds the limit, in call order, unless the
    limit is 0. *)
Definition expectedWarnings (size : nat) (vis : list node) : list warning :=
  if size =? 0 then []
  else map (oversizeWarning size) (filter (exceeds size) vis).

(** The estimated bytes of the units of a list of nodes. *)
Definition unitBytes (l : list node) : nat :=
  list_sum (map byteLength (flat_map units l)).

(** The units of a chunk are within the limit, or there is just one. *)
Definition withinBudget (size : nat) (chunk : root) : Prop :=
  unitBytes chunk <= size \/ exists u, flat_map units chunk = [u].

(** The budget as the state keeps it: for the finished chunks, and for
    the chunk under construction, whose units the running size bounds. *)
Definition budgetInv (size : nat) (st : state) : Prop :=
  Forall (withinBudget size) (finalChunks st)
  /\ withinBudget size (currentChunk st)
  /\ unitBytes (currentChunk st) <= currentChunkSize st
  /\ (currentChunk st = [] -> currentChunkSize st = 0).

(** The bytes of the top-level nodes of a chunk, as [addNode] counts
    them one by one. *)
Definition topBytes (chunk : root) : nat := list_sum (map byteLength chunk).

(** Every chunk but the first starts with a node that did not fit into
    the chunk before it. *)
Fixpoint filledGreedily (size : nat) (cs : list root) : bool :=
  match cs with
  | [] => true
  | c :: rest =>
      match rest with
      | (x :: _) :: _ => size <? topBytes c + byteLength x
      | _ => true
      end && filledGreedily size rest
  end.

(** What holds between top-level calls for an input that is never
    descended into. *)
Definition greedyInv (size : nat) (st : state) : Prop :=
  currentChunkSize st = topBytes (currentChunk st)
  /\ filledGreedily size (finalChunks st ++ [currentChunk st]) = true
  /\ (currentChunk st = [] -> finalChunks st = []).

End Estimates.

Module Examples.

Definition a_red := Rule [".a"] [Decl "color" "red"].
Definition b_red := Rule [".b"] [Decl "color" "red"].
Definition c_rrr := Rule [".c"] [Decl "c" "rrr"].

(** [@layer base;@layer base{.a{color:red}.b{color:red}}] *)
Definition layer_statement := AtRule "layer" "base" None.
Definition layer_block := AtRule "layer" "base" (Some [a_red; b_red]).

(** [@layer base;@layer base{@media print{.a{color:red}.b{color:red}}}] *)
Definition media_print := AtRule "media" "print" (Some [a_red; b_red]).
Definition layer_media := AtRule "layer" "base" (Some [media_print]).

(** [.a{color:red}@property --c{inherits:true}] *)
Definition property_block := AtRule "property" "--c" (Some [Decl "inherits" "true"]).

(** [.a{color:red}@media screen{.b{color:red}.c{c:rrr}}] *)
Definition media_b_c := AtRule "media" "screen" (Some [b_red; c_rrr]).

(** [@import x;.a{color:red}] *)
Definition import_x := AtRule "import" "x" None.

(** [@media screen{.a{color:red}@viewport{width:100px}}] *)
Definition viewport_block := AtRule "viewport" "" (Some [Decl "width" "100px"]).
Definition media_screen := AtRule "media" "screen" (Some [a_red; viewport_block]).

(** The stylesheets of the specification's scenarios. *)
Definition b_blue := Rule [".b"] [Decl "color" "blue"].
Definition x_empty := Rule [".x"] [].
Definition class_n (n px : string) :=
  Rule [(".class" ++ n)%string] [Decl "font-size" (px ++ "px")%string].
Definition media_four :=
  AtRule "media" "screen"
    (Some [class_n "1" "14"; class_n "2" "16"; class_n "3" "18"; class_n "4" "20"]).
Definition media_supports :=
  AtRule "media" "screen" (Some [AtRule "supports" "(display:grid)" (Some [a_red])]).

(** [@media x{.a{c:r}}@media x{.b{c:r}}.c{c:rrr}] *)
Definition media_x_a := AtRule "media" "x" (Some [Rule [".a"] [Decl "c" "r"]]).
Definition media_x_b := AtRule "media" "x" (Some [Rule [".b"] [Decl "c" "r"]]).

(** [@media screen{@keyframes k{from{opacity:0}to{opacity:1}}.a{color:red}}] *)
Definition keyframes_k :=
  AtRule "keyframes" "k"
    (Some [Rule ["from"] [Decl "opacity" "0"]; Rule ["to"] [Decl "opacity" "1"]]).

End Examples.

(** ** Basic facts *)

Lemma unsnoc_Some {A : Type} (l init : list A) (z : A) :
  unsnoc l = Some (init, z) -> l = init ++ [z].
Proof.
  revert init z.
  induction l as [|x rest IH]; intros init z H; simpl in H.
  - discriminate.
  - destruct (unsnoc rest) as [[i y]|] eqn:E.
    + injection H as <- <-. rewrite (IH i y eq_refl). reflexivity.
    + injection H as <- <-.
      destruct rest as [|y rest']; [reflexivity|].
      simpl in E. destruct (unsnoc rest') as [[? ?]|]; discriminate.
Qed.

Lemma unsnoc_None {A : Type} (l : list A) : unsnoc l = None -> l = [].
Proof.
  destruct l as [|x rest]; [reflexivity|].
  simpl. destruct (unsnoc rest) as [[? ?]|]; discriminate.
Qed.

Lemma unsnoc_snoc {A : Type} (init : list A) (z : A) :
  unsnoc (init ++ [z]) = Some (init, z).
Proof.
  induction init as [|x rest IH]; simpl; [reflexivity|].
  rewrite IH. reflexivity.
Qed.

Lemma length_pos_nil {A : Type} (l : list A) :
  (0 <? List.length l) = false <-> l = [].
Proof.
  destruct l; simpl; split; intro H; try reflexivity; discriminate.
Qed.

Lemma bind_Some {A B : Type} (m : option A) (f : A -> option B) (b : B) :
  bind m f = Some b -> exists a, m = Some a /\ f a = Some b.
Proof.
  destruct m as [a|]; simpl; intro H; [eauto | discriminate].
Qed.

(** A relation that every step of the callback establishes, and that is
    reflexive and transitive, holds across [forEach]. *)
Lemma forEach_ind {A S : Type} (f : A -> S -> option S) (R : S -> S -> Prop) :
  (forall st, R st st) ->
  (forall s1 s2 s3, R s1 s2 -> R s2 s3 -> R s1 s3) ->
  forall arr,
    Forall (fun x => forall st st', f x st = Some st' -> R st st') arr ->
    forall st st', forEach f arr st = Some st' -> R st st'.
Proof.
  intros Hrefl Htrans arr Hall.
  induction Hall as [|x rest Hx _ IH]; intros st st' H; simpl in H.
  - injection H as <-. apply Hrefl.
  - apply bind_Some in H as (s1 & H1 & H2).
    eapply Htrans; [apply (Hx _ _ H1) | apply (IH _ _ H2)].
Qed.

Section Properties.

Variable byteLength : node -> nat.

Lemma addNode_unfold size n parentChain st :
  addNode byteLength size n parentChain st =
  let st1 := warnOversize byteLength size n (logVisit n st) in
  let projectedSize := currentChunkSize st1 + byteLength n in
  match n with
  | AtRule name _ (Some kids) =>
      if (0 <? List.length kids) && negb (size =? 0) && (size <? projectedSize)
      then
        if includes nonSplittableAtRules name then
          Some (placeAtomic byteLength n parentChain st1)
        else if negb (hasActualContent kids) then
          Some (placeOpaque byteLength n st1)
        else
          forEach (fun child st => addNode byteLength size child (parentChain ++ [n]) st)
                  kids st1
      else placeNormal byteLength size n parentChain projectedSize st1
  | _ => placeNormal byteLength size n parentChain projectedSize st1
  end.
Proof. destruct n; reflexivity. Qed.

Lemma addNode_outcome size n parentChain st st' :
  addNode byteLength size n parentChain st = Some st' ->
  outcome byteLength size n parentChain
          (warnOversize byteLength size n (logVisit n st)) st'.
Proof.
  rewrite addNode_unfold. cbv zeta.
  set (st1 := warnOversize byteLength size n (logVisit n st)).
  destruct n as [sels ks|nm pr [kids|]|p v|t];
    try (intro H; apply out_normal; [discriminate | exact H]).
  destruct ((0 <? List.length kids) && negb (size =? 0)
            && (size <? currentChunkSize st1 + byteLength (AtRule nm pr (Some kids))))
    eqn:Hcond.
  2:{ intro H. apply out_normal; [|exact H].
      intros nm' pr' kids' E. injection E as <- <- <-.
      apply andb_false_iff in Hcond as [Hcond|Hcond];
        [apply andb_false_iff in Hcond as [Hcond|Hcond]|].
      - left. apply length_pos_nil. exact Hcond.
      - right. left. apply negb_false_iff, Nat.eqb_eq in Hcond. exact Hcond.
      - right. right. apply Nat.ltb_ge. exact Hcond. }
  apply andb_prop in Hcond as [Hcond Hover].
  apply andb_prop in Hcond as [Hkids Hsize].
  assert (Hne : kids <> []).
  { intros ->. discriminate Hkids. }
  apply negb_true_iff, Nat.eqb_neq in Hsize.
  apply Nat.ltb_lt in Hover.
  destruct (includes nonSplittableAtRules nm) eqn:Hatomic.
  - intro H. injection H as <-. eapply out_atomic; eauto.
  - destruct (hasActualContent kids) eqn:Hcontent; simpl.
    + intro H. eapply out_split; eauto.
    + intro H. injection H as <-. eapply out_opaque; eauto.
Qed.

(** A relation between states that is reflexive and transitive and that
    every primitive step of [addNode] establishes holds across a call. *)
Lemma addNode_rel (R : state -> state -> Prop) size :
  (forall st, R st st) ->
  (forall s1 s2 s3, R s1 s2 -> R s2 s3 -> R s1 s3) ->
  (forall n st, R st (warnOversize byteLength size n (logVisit n st))) ->
  (forall n chain st, R st (placeAtomic byteLength n chain st)) ->
  (forall n st, R st (placeOpaque byteLength n st)) ->
  (forall n chain proj st st',
      placeNormal byteLength size n chain proj st = Some st' -> R st st') ->
  forall n chain st st',
    addNode byteLength size n chain st = Some st' -> R st st'.
Proof.
  intros Hrefl Htrans Hwarn Hatomic Hopaque Hnormal.
  induction n as [sels ks _|nm pr ks IH|nm pr|p v|t] using node_nested_ind;
    intros chain st st' H; apply addNode_outcome in H;
    (eapply Htrans; [apply Hwarn|]);
    destruct H as [? ? ? E ? ->|? ? ? E ? ? ? ? ? ->|? ? ? E ? ? ? ? H|? H];
    try discriminate E; eauto.
  injection E as <- <- <-.
  apply (forEach_ind _ R Hrefl Htrans) with (arr := ks) (2 := H).
  eapply Forall_impl; [|exact IH]. intros child Hchild s s'. apply Hchild.
Qed.

(** The same across the loop of [Once]. *)
Lemma forEach_addNode_rel (R : state -> state -> Prop) size :
  (forall st, R st st) ->
  (forall s1 s2 s3, R s1 s2 -> R s2 s3 -> R s1 s3) ->
  (forall n st, R st (warnOversize byteLength size n (logVisit n st))) ->
  (forall n chain st, R st (placeAtomic byteLength n chain st)) ->
  (forall n st, R st (placeOpaque byteLength n st)) ->
  (forall n chain proj st st',
      placeNormal byteLength size n chain proj st = Some st' -> R st st') ->
  forall input chain st st',
    forEach (fun n st => addNode byteLength size n chain st) input st = Some st' ->
    R st st'.
Proof.
  intros Hrefl Htrans Hwarn Hatomic Hopaque Hnormal input chain st st' H.
  apply (forEach_ind _ R Hrefl Htrans) with (arr := input) (2 := H).
  apply Forall_forall. intros n _ s s'.
  apply addNode_rel; assumption.
Qed.

Lemma Once_Some size input res :
  Once byteLength size input = Some res ->
  exists st,
    forEach (fun n st => addNode byteLength size n [] st) input initialState = Some st
    /\ res = {| chunks := finalChunks (startNewChunk st);
                result_warnings := warnings st;
                root_after := [];
                result_visited := visited st |}.
Proof.
  unfold Once. intro H. apply bind_Some in H as (st & H1 & H2).
  exists st. split; [exact H1|]. injection H2 as <-. reflexivity.
Qed.

(** *** Flushing *)

Lemma startNewChunk_nonEmpty st :
  nonEmptyChunks (finalChunks st) ->
  nonEmptyChunks (finalChunks (startNewChunk st)).
Proof.
  unfold nonEmptyChunks, startNewChunk. simpl. intro H.
  destruct (currentChunk st) as [|x rest] eqn:E; simpl; [exact H|].
  apply Forall_app. split; [exact H|].
  constructor; [discriminate | constructor].
Qed.

Lemma placeNormal_finalChunks size n chain proj st st' :
  placeNormal byteLength size n chain proj st = Some st' ->
  finalChunks st' = finalChunks st
  \/ finalChunks st' = finalChunks (startNewChunk st).
Proof.
  unfold placeNormal.
  destruct (negb (size =? 0) && (size <? proj) && (0 <? List.length (currentChunk st)));
    destruct (0 <? List.length chain); intro H;
    try (apply bind_Some in H as ([chunk d] & _ & H));
    injection H as <-; simpl; auto.
Qed.

Lemma placeAtomic_finalChunks n chain st :
  finalChunks (placeAtomic byteLength n chain st) = finalChunks st
  \/ finalChunks (placeAtomic byteLength n chain st) = finalChunks (startNewChunk st).
Proof.
  unfold placeAtomic.
  destruct (0 <? List.length (currentChunk st));
    destruct (0 <? List.length chain);
    try destruct (wrapFresh byteLength chain (clone n)); simpl; auto.
Qed.

Lemma warnOversize_finalChunks size n st :
  finalChunks (warnOversize byteLength size n (logVisit n st)) = finalChunks st.
Proof.
  unfold warnOversize.
  destruct (negb (size =? 0) && (size <? byteLength n)); reflexivity.
Qed.

Lemma forEach_addNode_nonEmpty size input chain st st' :
  forEach (fun n st => addNode byteLength size n chain st) input st = Some st' ->
  nonEmptyChunks (finalChunks st) -> nonEmptyChunks (finalChunks st').
Proof.
  apply (forEach_addNode_rel
           (fun s s' => nonEmptyChunks (finalChunks s) ->
                        nonEmptyChunks (finalChunks s'))); auto.
  - intros n s. rewrite warnOversize_finalChunks. auto.
  - intros n c s Hs.
    destruct (placeAtomic_finalChunks n c s) as [-> | ->];
      auto using startNewChunk_nonEmpty.
  - intros n c proj s s' H Hs.
    destruct (placeNormal_finalChunks _ _ _ _ _ _ H) as [-> | ->];
      auto using startNewChunk_nonEmpty.
Qed.

(** C10 -- [startNewChunk] pushes the chunk under construction only when
    it holds a node, so every chunk [Once] hands back holds at least one
    node; and an input without nodes gives no chunk and no warning. *)
Theorem no_empty_chunk :
  (forall st, nonEmptyChunks (finalChunks st) ->
              nonEmptyChunks (finalChunks (startNewChunk st)))
  /\ (forall size input res,
         Once byteLength size input = Some res -> nonEmptyChunks (chunks res))
  /\ (forall size,
         exists res, Once byteLength size [] = Some res
                     /\ chunks res = [] /\ result_warnings res = []).
Proof.
  split; [exact startNewChunk_nonEmpty|]. split.
  - intros size input res H.
    apply Once_Some in H as (st & Hrun & ->). simpl.
    apply startNewChunk_nonEmpty.
    apply (forEach_addNode_nonEmpty _ _ _ _ _ Hrun). constructor.
  - intro size. eexists. split; [reflexivity|]. split; reflexivity.
Qed.

(** *** Warnings *)

Lemma placeNormal_log size n chain proj st st' :
  placeNormal byteLength size n chain proj st = Some st' ->
  warnings st' = warnings st /\ visited st' = visited st.
Proof.
  unfold placeNormal.
  destruct (negb (size =? 0) && (size <? proj) && (0 <? List.length (currentChunk st)));
    destruct (0 <? List.length chain); intro H;
    try (apply bind_Some in H as ([chunk d] & _ & H));
    injection H as <-; simpl; auto.
Qed.

Lemma placeAtomic_log n chain st :
  warnings (placeAtomic byteLength n chain st) = warnings st
  /\ visited (placeAtomic byteLength n chain st) = visited st.
Proof.
  unfold placeAtomic.
  destruct (0 <? List.length (currentChunk st));
    destruct (0 <? List.length chain);
    try destruct (wrapFresh byteLength chain (clone n)); simpl; auto.
Qed.

Lemma warnOversize_log size n st :
  warnings (warnOversize byteLength size n (logVisit n st))
  = warnings st ++ expectedWarnings byteLength size [n]
  /\ visited (warnOversize byteLength size n (logVisit n st)) = visited st ++ [n].
Proof.
  unfold warnOversize, expectedWarnings, exceeds, oversizeWarning. simpl.
  destruct (size =? 0); simpl.
  - rewrite app_nil_r. auto.
  - destruct (size <? byteLength n); simpl; [auto|].
    rewrite app_nil_r. auto.
Qed.

Lemma expectedWarnings_app size l1 l2 :
  expectedWarnings byteLength size (l1 ++ l2)
  = expectedWarnings byteLength size l1 ++ expectedWarnings byteLength size l2.
Proof.
  unfold expectedWarnings. destruct (size =? 0); [reflexivity|].
  rewrite filter_app, map_app. reflexivity.
Qed.

Lemma forEach_addNode_warnings size input chain st st' :
  forEach (fun n st => addNode byteLength size n chain st) input st = Some st' ->
  warnings st = expectedWarnings byteLength size (visited st) ->
  warnings st' = expectedWarnings byteLength size (visited st').
Proof.
  apply (forEach_addNode_rel
           (fun s s' => warnings s = expectedWarnings byteLength size (visited s) ->
                        warnings s' = expectedWarnings byteLength size (visited s'))); auto.
  - intros n s Hs.
    destruct (warnOversize_log size n s) as [-> ->].
    rewrite expectedWarnings_app, Hs. reflexivity.
  - intros n c s Hs. destruct (placeAtomic_log n c s) as [-> ->]. exact Hs.
  - intros n c proj s s' H Hs.
    destruct (placeNormal_log _ _ _ _ _ _ H) as [-> ->]. exact Hs.
Qed.

Lemma addNode_visited_mono size n chain st st' :
  addNode byteLength size n chain st = Some st' ->
  incl (visited st) (visited st').
Proof.
  apply (addNode_rel (fun s s' => incl (visited s) (visited s'))).
  - intro s. apply incl_refl.
  - intros s1 s2 s3. apply incl_tran.
  - intros m s. destruct (warnOversize_log size m s) as [_ ->].
    apply incl_appl, incl_refl.
  - intros m c s. destruct (placeAtomic_log m c s) as [_ ->]. apply incl_refl.
  - intros m s. apply incl_refl.
  - intros m c proj s s' H. destruct (placeNormal_log _ _ _ _ _ _ H) as [_ ->].
    apply incl_refl.
Qed.

Lemma addNode_visits_node size n chain st st' :
  addNode byteLength size n chain st = Some st' -> In n (visited st').
Proof.
  intro H. pose proof (addNode_outcome _ _ _ _ _ H) as Hout.
  assert (Hn : In n (visited (warnOversize byteLength size n (logVisit n st)))).
  { destruct (warnOversize_log size n st) as [_ ->].
    apply in_or_app. right. left. reflexivity. }
  destruct Hout as [? ? ? _ _ ->|? ? ? _ _ _ _ _ _ ->|? ? ? _ _ _ _ _ Hrun|_ Hplace].
  - destruct (placeAtomic_log n chain (warnOversize byteLength size n (logVisit n st)))
      as [_ ->]. exact Hn.
  - exact Hn.
  - revert Hrun Hn. generalize (warnOversize byteLength size n (logVisit n st)).
    intros s Hrun Hn.
    assert (Hincl : incl (visited s) (visited st')); [|exact (Hincl n Hn)].
    apply (forEach_ind _ (fun s s' => incl (visited s) (visited s')))
      with (arr := kids) (4 := Hrun).
    + intro s1. apply incl_refl.
    + intros s1 s2 s3. apply incl_tran.
    + apply Forall_forall. intros c _ s1 s2. apply addNode_visited_mono.
  - destruct (placeNormal_log _ _ _ _ _ _ Hplace) as [_ ->]. exact Hn.
Qed.

Lemma forEach_addNode_visits size input chain st st' :
  forEach (fun n st => addNode byteLength size n chain st) input st = Some st' ->
  incl (visited st ++ input) (visited st').
Proof.
  revert st. induction input as [|n rest IH]; intros st H; simpl in H.
  - injection H as <-. rewrite app_nil_r. apply incl_refl.
  - apply bind_Some in H as (s1 & H1 & H2).
    specialize (IH _ H2).
    intros x Hx. apply in_app_or in Hx as [Hx|[<-|Hx]].
    + apply IH, in_or_app. left. eapply addNode_visited_mono; eauto.
    + apply IH, in_or_app. left. eapply addNode_visits_node; eauto.
    + apply IH, in_or_app. right. exact Hx.
Qed.

(** *** Runs that never overflow *)

(** With the limit 0, or while the running size plus the node stays
    within the limit, a top-level call appends the node to the chunk
    under construction and does nothing else. *)
Lemma addNode_fits size n st :
  size = 0 \/ currentChunkSize st + byteLength n <= size ->
  addNode byteLength size n [] st
  = Some {| finalChunks := finalChunks st;
            currentChunk := currentChunk st ++ [n];
            currentChunkSize := currentChunkSize st + byteLength n;
            warnings := warnings st;
            visited := visited st ++ [n] |}.
Proof.
  intro Hfit. rewrite addNode_unfold. cbv zeta.
  assert (Hwarn : warnOversize byteLength size n (logVisit n st) = logVisit n st).
  { unfold warnOversize.
    destruct Hfit as [-> | Hfit]; [reflexivity|].
    replace (size <? byteLength n) with false
      by (symmetry; apply Nat.ltb_ge; lia).
    rewrite andb_false_r. reflexivity. }
  rewrite Hwarn. simpl currentChunkSize.
  assert (Hover : negb (size =? 0) && (size <? currentChunkSize st + byteLength n) = false).
  { destruct Hfit as [-> | Hfit]; [reflexivity|].
    replace (size <? currentChunkSize st + byteLength n) with false
      by (symmetry; apply Nat.ltb_ge; lia).
    apply andb_false_r. }
  assert (Hnormal :
            placeNormal byteLength size n []
                        (currentChunkSize st + byteLength n) (logVisit n st)
            = Some {| finalChunks := finalChunks st;
                      currentChunk := currentChunk st ++ [n];
                      currentChunkSize := currentChunkSize st + byteLength n;
                      warnings := warnings st;
                      visited := visited st ++ [n] |}).
  { unfold placeNormal. rewrite Hover. reflexivity. }
  destruct n as [sels ks|nm pr [kids|]|p v|t]; try exact Hnormal.
  rewrite <- andb_assoc, Hover, andb_false_r. exact Hnormal.
Qed.

Lemma forEach_addNode_fits size rest : forall pre,
  size = 0 \/ list_sum (map byteLength (pre ++ rest)) <= size ->
  forEach (fun n st => addNode byteLength size n [] st) rest
          {| finalChunks := []; currentChunk := pre;
             currentChunkSize := list_sum (map byteLength pre);
             warnings := []; visited := pre |}
  = Some {| finalChunks := []; currentChunk := pre ++ rest;
            currentChunkSize := list_sum (map byteLength (pre ++ rest));
            warnings := []; visited := pre ++ rest |}.
Proof.
  induction rest as [|n rest IH]; intros pre Hfit; simpl.
  - rewrite app_nil_r. reflexivity.
  - assert (Hsum : list_sum (map byteLength (pre ++ [n]))
                   = list_sum (map byteLength pre) + byteLength n).
    { rewrite map_app, list_sum_app. simpl. lia. }
    rewrite addNode_fits; simpl.
    + rewrite <- Hsum.
      replace (pre ++ n :: rest) with ((pre ++ [n]) ++ rest)
        by (rewrite <- app_assoc; reflexivity).
      apply IH. rewrite <- app_assoc. exact Hfit.
    + destruct Hfit as [Hz | Hfit]; [left; exact Hz | right].
      rewrite map_app, list_sum_app in Hfit. simpl in Hfit. lia.
Qed.

Lemma Once_fits size input :
  size = 0 \/ list_sum (map byteLength input) <= size ->
  Once byteLength size input
  = Some {| chunks := match input with [] => [] | _ => [input] end;
            result_warnings := [];
            root_after := [];
            result_visited := input |}.
Proof.
  intro Hfit. unfold Once.
  change initialState
    with {| finalChunks := []; currentChunk := @nil node;
            currentChunkSize := list_sum (map byteLength []);
            warnings := []; visited := [] |}.
  rewrite forEach_addNode_fits by exact Hfit. simpl.
  destruct input; reflexivity.
Qed.



(** *** Atomic at-rules *)

(** A reading [m] of the state that every step of the callback extends
    by the reading [g] of its argument is extended by [forEach] with the
    readings of the whole array. *)
Lemma forEach_accumulates {A S X : Type} (f : A -> S -> option S)
      (m : S -> list X) (g : A -> list X) arr :
  Forall (fun x => forall st st', f x st = Some st' -> m st' = m st ++ g x) arr ->
  forall st st', forEach f arr st = Some st' -> m st' = m st ++ flat_map g arr.
Proof.
  induction 1 as [|x rest Hx _ IH]; intros st st' H; simpl in H.
  - injection H as <-. simpl. rewrite app_nil_r. reflexivity.
  - apply bind_Some in H as (s1 & H1 & H2).
    rewrite (IH _ _ H2), (Hx _ _ H1), <- app_assoc. reflexivity.
Qed.



Lemma sameAtRule_name nm pr body p :
  sameAtRule (AtRule nm pr body) p = true ->
  exists body', p = AtRule nm pr body'.
Proof.
  destruct p as [|nm' pr' body'| |]; simpl; try discriminate.
  intro H. apply andb_prop in H as [Hn Hp].
  apply String.eqb_eq in Hn, Hp. subst. eauto.
Qed.

Lemma flat_map_snoc {A B : Type} (f : A -> list B) l x :
  flat_map f (l ++ [x]) = flat_map f l ++ f x.
Proof. rewrite flat_map_app. simpl. rewrite app_nil_r. reflexivity. Qed.









(** *** Chunk counts under two limits *)

Lemma chunkCount_startNewChunk st :
  List.length (finalChunks (startNewChunk st)) = chunkCount st.
Proof.
  unfold chunkCount, startNewChunk. simpl.
  destruct (0 <? List.length (currentChunk st)).
  - rewrite length_app. reflexivity.
  - lia.
Qed.

(** A top-level call on a node that is not descended into, under a limit
    other than 0: the node either opens a chunk (the chunk under
    construction is empty, or the node overflows it and is not opaque)
    or joins the chunk under construction. *)
Lemma addNode_unit size n st :
  size <> 0 ->
  splittable n = false ->
  (currentChunk st = [] -> currentChunkSize st = 0) ->
  exists st',
    addNode byteLength size n [] st = Some st'
    /\ currentChunk st' <> []
    /\ ((chunkCount st' = chunkCount st + 1
         /\ currentChunkSize st' = byteLength n
         /\ (currentChunk st = []
             \/ (size < currentChunkSize st + byteLength n /\ opaque n = false)))
        \/ (chunkCount st' = chunkCount st
            /\ currentChunkSize st' = currentChunkSize st + byteLength n
            /\ currentChunk st <> []
            /\ (currentChunkSize st + byteLength n <= size \/ opaque n = true))).
Proof.
  intros Hsize Hunit Hempty. rewrite addNode_unfold. cbv zeta.
  set (st1 := warnOversize byteLength size n (logVisit n st)).
  assert (Hchunk : currentChunk st1 = currentChunk st
                   /\ currentChunkSize st1 = currentChunkSize st
                   /\ finalChunks st1 = finalChunks st).
  { unfold st1, warnOversize.
    destruct (negb (size =? 0) && (size <? byteLength n)); simpl; auto. }
  destruct Hchunk as (Hcur & Hc & Hfin).
  assert (Hcount : chunkCount st1 = chunkCount st).
  { unfold chunkCount. rewrite Hcur, Hfin. reflexivity. }
  rewrite <- Hcur, <- Hc, <- Hcount in *. clearbody st1. clear Hcur Hc Hfin Hcount.
  set (c := currentChunkSize st1) in *.
  set (s := byteLength n) in *.
  assert (Hnz : negb (size =? 0) = true)
    by (apply negb_true_iff, Nat.eqb_neq; exact Hsize).
  (* the three placements, on a chunk with or without nodes *)
  assert (Hflush :
            currentChunk st1 <> [] -> size < c + s -> opaque n = false ->
            forall st',
              st' = setChunk (startNewChunk st1) [clone n] (0 + s) ->
              currentChunk st' <> []
              /\ ((chunkCount st' = chunkCount st1 + 1
                   /\ currentChunkSize st' = s
                   /\ (currentChunk st1 = [] \/ (size < c + s /\ opaque n = false)))
                  \/ (chunkCount st' = chunkCount st1
                      /\ currentChunkSize st' = c + s
                      /\ currentChunk st1 <> []
                      /\ (c + s <= size \/ opaque n = true)))).
  { intros Hne Hover Hop st' ->. split; [discriminate|]. left.
    unfold chunkCount. simpl.
    destruct (currentChunk st1); [contradiction|]. simpl.
    rewrite length_app. simpl. auto. }
  assert (Hkeep :
            (currentChunk st1 = [] \/ c + s <= size \/ opaque n = true) ->
            forall st',
              st' = setChunk st1 (currentChunk st1 ++ [clone n]) (c + s) ->
              currentChunk st' <> []
              /\ ((chunkCount st' = chunkCount st1 + 1
                   /\ currentChunkSize st' = s
                   /\ (currentChunk st1 = [] \/ (size < c + s /\ opaque n = false)))
                  \/ (chunkCount st' = chunkCount st1
                      /\ currentChunkSize st' = c + s
                      /\ currentChunk st1 <> []
                      /\ (c + s <= size \/ opaque n = true)))).
  { intros Hwhy st' ->. split; [simpl; destruct (currentChunk st1); discriminate|].
    unfold chunkCount. simpl.
    destruct (currentChunk st1) as [|x rest] eqn:Ecur.
    - left. simpl. rewrite (Hempty eq_refl). auto with arith.
    - right. simpl.
      destruct Hwhy as [Hwhy|Hwhy]; [discriminate|].
      split; [reflexivity|]. split; [reflexivity|]. split; [discriminate|].
      exact Hwhy. }
  assert (Hnormal :
            opaque n = false \/ c + s <= size ->
            exists st',
              placeNormal byteLength size n [] (c + s) st1 = Some st'
              /\ currentChunk st' <> []
              /\ ((chunkCount st' = chunkCount st1 + 1
                   /\ currentChunkSize st' = s
                   /\ (currentChunk st1 = [] \/ (size < c + s /\ opaque n = false)))
                  \/ (chunkCount st' = chunkCount st1
                      /\ currentChunkSize st' = c + s
                      /\ currentChunk st1 <> []
                      /\ (c + s <= size \/ opaque n = true)))).
  { intro Hop. unfold placeNormal. rewrite Hnz. simpl andb.
    destruct (size <? c + s) eqn:Hover; simpl andb.
    - apply Nat.ltb_lt in Hover.
      destruct Hop as [Hop|Hle]; [|lia].
      destruct (0 <? List.length (currentChunk st1)) eqn:Hne.
      + eexists. split; [reflexivity|].
        apply Hflush; auto.
        intro E. rewrite E in Hne. discriminate.
      + eexists. split; [reflexivity|].
        apply Hkeep; auto. left. apply length_pos_nil. exact Hne.
    - apply Nat.ltb_ge in Hover.
      eexists. split; [reflexivity|]. apply Hkeep; auto. }
  destruct n as [sels ks|nm pr [kids|]|p v|t];
    try (apply Hnormal; left; reflexivity).
  rewrite Hnz, andb_true_r.
  destruct (0 <? List.length kids) eqn:Hkids; simpl andb.
  2:{ apply Hnormal. left. unfold opaque. rewrite Hkids. reflexivity. }
  fold s. destruct (size <? c + s) eqn:Hover.
  2:{ apply Nat.ltb_ge in Hover. apply Hnormal. right. exact Hover. }
  apply Nat.ltb_lt in Hover.
  destruct (includes nonSplittableAtRules nm) eqn:Hatomic.
  - eexists. split; [reflexivity|].
    unfold placeAtomic. simpl List.length. simpl Nat.ltb.
    destruct (0 <? List.length (currentChunk st1)) eqn:Hne.
    + apply Hflush; auto.
      * intro E. rewrite E in Hne. discriminate.
      * unfold opaque. rewrite Hatomic. cbn [negb]. rewrite andb_false_r. reflexivity.
    + apply Hkeep; auto. left. apply length_pos_nil. exact Hne.
  - unfold splittable in Hunit. rewrite Hatomic in Hunit. cbn [negb andb] in Hunit.
    rewrite Hunit. cbn [negb].
    eexists. split; [reflexivity|].
    unfold placeOpaque. apply Hkeep; auto.
    right. right. unfold opaque. rewrite Hkids, Hatomic, Hunit. reflexivity.
Qed.

Lemma forEach_addNode_ahead a b input :
  0 < a -> a < b ->
  Forall (fun n => splittable n = false) input ->
  forall sa sb,
    ahead sa sb ->
    exists sa' sb',
      forEach (fun n st => addNode byteLength a n [] st) input sa = Some sa'
      /\ forEach (fun n st => addNode byteLength b n [] st) input sb = Some sb'
      /\ ahead sa' sb'.
Proof.
  intros Ha Hab Hunits.
  induction Hunits as [|n rest Hn _ IH]; intros sa sb Hahead; simpl.
  - eauto.
  - destruct Hahead as (Hsame & Hea & Heb & Hcount).
    destruct (addNode_unit a n sa) as (sa1 & -> & Hnea & Hstepa);
      [lia | exact Hn | exact Hea |].
    destruct (addNode_unit b n sb) as (sb1 & -> & Hneb & Hstepb);
      [lia | exact Hn | exact Heb |].
    simpl. apply IH.
    unfold ahead. split; [tauto|]. split; [tauto|]. split; [tauto|].
    destruct Hstepa as [(Hca & Hsa & Hwa)|(Hca & Hsa & Hcura & Hwa)];
      destruct Hstepb as [(Hcb & Hsb & Hwb)|(Hcb & Hsb & Hcurb & Hwb)];
      rewrite Hca, Hcb, Hsa, Hsb.
    + destruct Hcount as [Hlt|[Heq Hle]]; [left; lia | right; lia].
    + destruct Hcount as [Hlt|[Heq Hle]]; [left; lia | left; lia].
    + destruct Hcount as [Hlt|[Heq Hle]].
      * destruct (Nat.eq_dec (chunkCount sb + 1) (chunkCount sa));
          [right; lia | left; lia].
      * exfalso.
        destruct Hwb as [Hwb|[Hover Hop]]; [apply Hcura, Hsame, Hwb|].
        destruct Hwa as [Hfit|Hop']; [lia | congruence].
    + destruct Hcount as [Hlt|[Heq Hle]]; [left; lia | right; lia].
Qed.

(** C9, as the code has it -- for two limits other than 0 and an input
    none of whose top-level nodes is descended into (no at-rule outside
    [nonSplittableAtRules] with actual content), the smaller limit gives
    at least as many chunks as the larger one. *)
Theorem chunk_count_monotone a b input :
  0 < a -> a < b ->
  Forall (fun n => splittable n = false) input ->
  exists ra rb,
    Once byteLength a input = Some ra
    /\ Once byteLength b input = Some rb
    /\ List.length (chunks rb) <= List.length (chunks ra).
Proof.
  intros Ha Hab Hunits.
  destruct (forEach_addNode_ahead a b input Ha Hab Hunits initialState initialState)
    as (sa & sb & Hra & Hrb & Hahead).
  { unfold ahead, chunkCount. simpl. intuition lia. }
  unfold Once. rewrite Hra, Hrb. cbn [bind].
  do 2 eexists. split; [reflexivity|]. split; [reflexivity|]. cbn [chunks].
  rewrite !chunkCount_startNewChunk.
  destruct Hahead as (_ & _ & _ & [Hlt|[Heq _]]); lia.
Qed.

(** *** Inputs with a name discipline: no exception, nothing lost *)

Lemma forEach_total {A S X : Type} (f : A -> S -> option S)
      (Inv : S -> Prop) (m : S -> list X) (g : A -> list X) arr :
  Forall (fun x => forall st, Inv st ->
            exists st', f x st = Some st' /\ Inv st' /\ m st' = m st ++ g x) arr ->
  forall st, Inv st ->
    exists st', forEach f arr st = Some st' /\ Inv st'
                /\ m st' = m st ++ flat_map g arr.
Proof.
  induction 1 as [|x rest Hx _ IH]; intros st Hst; simpl.
  - exists st. rewrite app_nil_r. auto.
  - destruct (Hx st Hst) as (s1 & -> & Hs1 & Hm1). simpl.
    destruct (IH s1 Hs1) as (st' & Hrun & Hst' & Hm).
    exists st'. rewrite Hm, Hm1, <- app_assoc. auto.
Qed.

Lemma forallb_snoc {A : Type} (f : A -> bool) l x :
  forallb f (l ++ [x]) = forallb f l && f x.
Proof. rewrite forallb_app. simpl. rewrite andb_true_r. reflexivity. Qed.

Lemma appendUnder_disciplined blk chain n : forall kids,
  Forall (blockNamed blk) chain ->
  forallb (disciplined blk) kids = true ->
  disciplined blk n = true ->
  exists kids' d,
    appendUnder byteLength chain n kids = Some (kids', d)
    /\ forallb (disciplined blk) kids' = true
    /\ flat_map leaves kids' = flat_map leaves kids ++ leaves n.
Proof.
  induction chain as [|p rest IH]; intros kids Hchain Hkids Hn; simpl.
  - exists (kids ++ [n]), 0. split; [reflexivity|].
    rewrite forallb_snoc, Hkids, Hn, flat_map_snoc. auto.
  - inversion Hchain as [|? ? Hp Hrest]; subst.
    destruct p as [|nmp prp bodyp| |]; cbn [blockNamed] in Hp; try contradiction.
    assert (Hnew :
              exists kids' d,
                ('(ks', d) <- appendUnder byteLength rest n [] ;;
                 Some (kids ++ [withNodes (AtRule nmp prp bodyp) ks'],
                       byteLength (shellOf (AtRule nmp prp bodyp)) + d))
                = Some (kids', d)
                /\ forallb (disciplined blk) kids' = true
                /\ flat_map leaves kids' = flat_map leaves kids ++ leaves n).
    { destruct (IH [] Hrest eq_refl Hn) as (ks' & d & -> & Hks' & Hleaves).
      simpl. do 2 eexists. split; [reflexivity|].
      rewrite forallb_snoc, flat_map_snoc, Hkids. cbn [disciplined leaves].
      rewrite Hp, Hks', Hleaves. auto. }
    destruct (unsnoc kids) as [[init lastNode]|] eqn:Hlast; [|exact Hnew].
    destruct lastNode as [|nm pr body| |]; try exact Hnew.
    destruct (sameAtRule (AtRule nm pr body) (AtRule nmp prp bodyp)) eqn:Hsame;
      [|exact Hnew].
    apply sameAtRule_name in Hsame as [body' Heq]. injection Heq as <- <- _.
    apply unsnoc_Some in Hlast as ->.
    rewrite forallb_snoc in Hkids. apply andb_prop in Hkids as [Hinit Hlast].
    cbn [disciplined] in Hlast.
    destruct body as [ks|].
    + apply andb_prop in Hlast as [_ Hks].
      destruct (IH ks Hrest Hks Hn) as (ks' & d & -> & Hks' & Hleaves).
      simpl. do 2 eexists. split; [reflexivity|].
      rewrite forallb_snoc, !flat_map_snoc, Hinit. cbn [disciplined leaves].
      rewrite Hp, Hks', Hleaves, app_assoc. auto.
    + rewrite Hp in Hlast. discriminate.
Qed.

Lemma wrapFresh_disciplined blk chain n :
  Forall (blockNamed blk) chain ->
  disciplined blk n = true ->
  disciplined blk (fst (wrapFresh byteLength chain n)) = true
  /\ leaves (fst (wrapFresh byteLength chain n)) = leaves n.
Proof.
  intros Hchain Hn.
  induction Hchain as [|p rest Hp _ IH]; simpl; [auto|].
  destruct (wrapFresh byteLength rest n) as [inner d]. simpl in *.
  destruct p as [|nm pr body| |]; cbn [blockNamed] in Hp; try contradiction.
  destruct IH as [Hd Hl]. cbn [withNodes disciplined leaves forallb flat_map].
  rewrite Hp, Hd, Hl, app_nil_r. auto.
Qed.

Lemma startNewChunk_placedLeaves st :
  placedLeaves (startNewChunk st) = placedLeaves st.
Proof.
  unfold placedLeaves, startNewChunk. simpl.
  destruct (currentChunk st) as [|x rest]; simpl; [reflexivity|].
  rewrite flat_map_snoc, app_nil_r. reflexivity.
Qed.

Lemma setChunk_placedLeaves st chunk sz n :
  flat_map leaves chunk = flat_map leaves (currentChunk st) ++ leaves n ->
  placedLeaves (setChunk st chunk sz) = placedLeaves st ++ leaves n.
Proof.
  unfold placedLeaves. simpl. intros ->. apply app_assoc.
Qed.

Lemma warnOversize_chunk size n st :
  currentChunk (warnOversize byteLength size n (logVisit n st)) = currentChunk st
  /\ placedLeaves (warnOversize byteLength size n (logVisit n st)) = placedLeaves st.
Proof.
  unfold warnOversize.
  destruct (negb (size =? 0) && (size <? byteLength n)); auto.
Qed.

Lemma placeNormal_disciplined blk size n chain proj st :
  Forall (blockNamed blk) chain ->
  forallb (disciplined blk) (currentChunk st) = true ->
  disciplined blk n = true ->
  exists st',
    placeNormal byteLength size n chain proj st = Some st'
    /\ forallb (disciplined blk) (currentChunk st') = true
    /\ placedLeaves st' = placedLeaves st ++ leaves n.
Proof.
  intros Hchain Hst Hn. unfold placeNormal.
  set (s := if negb (size =? 0) && (size <? proj) && (0 <? List.length (currentChunk st))
            then startNewChunk st else st).
  assert (Hs : placedLeaves s = placedLeaves st
               /\ forallb (disciplined blk) (currentChunk s) = true).
  { unfold s. destruct (negb (size =? 0) && (size <? proj)
                        && (0 <? List.length (currentChunk st)));
      [split; [apply startNewChunk_placedLeaves | reflexivity] | auto]. }
  destruct Hs as [Hleaves Hs]. rewrite <- Hleaves.
  destruct (0 <? List.length chain).
  - destruct (appendUnder_disciplined blk chain (clone n) (currentChunk s) Hchain Hs Hn)
      as (chunk & d & -> & Hchunk & Hl).
    simpl. eexists. split; [reflexivity|]. split; [exact Hchunk|].
    apply setChunk_placedLeaves. exact Hl.
  - eexists. split; [reflexivity|]. split.
    + simpl. rewrite forallb_snoc, Hs. exact Hn.
    + apply setChunk_placedLeaves, flat_map_snoc.
Qed.

Lemma placeAtomic_disciplined blk n chain st :
  Forall (blockNamed blk) chain ->
  forallb (disciplined blk) (currentChunk st) = true ->
  disciplined blk n = true ->
  forallb (disciplined blk) (currentChunk (placeAtomic byteLength n chain st)) = true
  /\ placedLeaves (placeAtomic byteLength n chain st) = placedLeaves st ++ leaves n.
Proof.
  intros Hchain Hst Hn. unfold placeAtomic.
  set (s := if 0 <? List.length (currentChunk st) then startNewChunk st else st).
  assert (Hs : placedLeaves s = placedLeaves st
               /\ forallb (disciplined blk) (currentChunk s) = true).
  { unfold s. destruct (0 <? List.length (currentChunk st));
      [split; [apply startNewChunk_placedLeaves | reflexivity] | auto]. }
  destruct Hs as [Hleaves Hs]. rewrite <- Hleaves.
  destruct (0 <? List.length chain).
  - destruct (wrapFresh_disciplined blk chain (clone n) Hchain Hn) as [Hd Hl].
    destruct (wrapFresh byteLength chain (clone n)) as [outer d]. simpl in Hd, Hl.
    split.
    + simpl. rewrite forallb_snoc, Hs. exact Hd.
    + apply setChunk_placedLeaves. rewrite flat_map_snoc, Hl. reflexivity.
  - split.
    + simpl. rewrite forallb_snoc, Hs. exact Hn.
    + apply setChunk_placedLeaves, flat_map_snoc.
Qed.

Lemma addNode_disciplined blk size n : forall chain st,
  Forall (blockNamed blk) chain ->
  forallb (disciplined blk) (currentChunk st) = true ->
  disciplined blk n = true ->
  exists st',
    addNode byteLength size n chain st = Some st'
    /\ forallb (disciplined blk) (currentChunk st') = true
    /\ placedLeaves st' = placedLeaves st ++ leaves n.
Proof.
  induction n as [sels ks _|nm pr ks IH|nm pr|p v|t] using node_nested_ind;
    intros chain st Hchain Hst Hn; rewrite addNode_unfold; cbv zeta;
    match goal with
    | |- context [warnOversize byteLength size ?m (logVisit ?m st)] =>
        destruct (warnOversize_chunk size m st) as [Hcur Hleaves];
        rewrite <- Hcur in Hst; rewrite <- Hleaves; clear Hcur Hleaves;
        set (st1 := warnOversize byteLength size m (logVisit m st)) in *;
        clearbody st1; clear st
    end;
    try (apply placeNormal_disciplined; assumption).
  rename st1 into st.
  destruct ((0 <? List.length ks) && negb (size =? 0)
            && (size <? currentChunkSize st + byteLength (AtRule nm pr (Some ks))));
    [|apply placeNormal_disciplined; assumption].
  destruct (includes nonSplittableAtRules nm).
  { eexists. split; [reflexivity|]. apply placeAtomic_disciplined; assumption. }
  destruct (negb (hasActualContent ks)).
  { eexists. split; [reflexivity|]. unfold placeOpaque. split.
    - simpl. rewrite forallb_snoc, Hst. exact Hn.
    - apply setChunk_placedLeaves, flat_map_snoc. }
  cbn [disciplined] in Hn. apply andb_prop in Hn as [Hblk Hks].
  cbn [leaves].
  apply (forEach_total
           (fun child st => addNode byteLength size child (chain ++ [AtRule nm pr (Some ks)]) st)
           (fun st => forallb (disciplined blk) (currentChunk st) = true)
           placedLeaves leaves); [|exact Hst].
  rewrite forallb_forall in Hks.
  rewrite Forall_forall in IH. apply Forall_forall. intros child Hin s Hs.
  apply IH; auto.
  apply Forall_app. split; [exact Hchain|]. constructor; [exact Hblk | constructor].
Qed.

(** Where at-rule names are used consistently (no name both with and
    without a block, read through at-rule blocks), [Once] throws nothing
    and loses nothing: read in order over the chunks, the leaf content is
    that of the input. *)
Theorem lossless_under_name_discipline blk size input :
  forallb (disciplined blk) input = true ->
  exists res,
    Once byteLength size input = Some res
    /\ flat_map (flat_map leaves) (chunks res) = flat_map leaves input.
Proof.
  intro Hinput. unfold Once.
  destruct (forEach_total
              (fun n st => addNode byteLength size n [] st)
              (fun st => forallb (disciplined blk) (currentChunk st) = true)
              placedLeaves leaves input) with (st := initialState)
    as (st & -> & _ & Hleaves).
  - rewrite forallb_forall in Hinput. apply Forall_forall. intros n Hin s Hs.
    apply addNode_disciplined; auto.
  - reflexivity.
  - simpl. eexists. split; [reflexivity|]. cbn [chunks].
    change (flat_map leaves input) with (placedLeaves initialState ++ flat_map leaves input).
    rewrite <- Hleaves, <- (startNewChunk_placedLeaves st).
    unfold placedLeaves. simpl. rewrite app_nil_r. reflexivity.
Qed.

(** *** Nesting under the parent chain *)

(** The normal flow leaves the node under the whole chain. *)
Lemma appendUnder_nested chain n : forall kids kids' d,
  Forall chainable chain ->
  appendUnder byteLength chain n kids = Some (kids', d) ->
  nestedUnder chain n kids'.
Proof.
  induction chain as [|p rest IH]; intros kids kids' d Hchain H; simpl in H.
  - injection H as <- _. exists kids. reflexivity.
  - inversion Hchain as [|? ? Hp Hrest]; subst.
    assert (Hnew : forall r,
               ('(ks', d) <- appendUnder byteLength rest n [] ;;
                Some (kids ++ [withNodes p ks'], byteLength (shellOf p) + d)) = Some r ->
               nestedUnder (p :: rest) n (fst r)).
    { intros r Hr. apply bind_Some in Hr as ([ks' d'] & Hrec & Hr).
      injection Hr as <-. cbn [fst nestedUnder].
      destruct p as [|nm pr body| |]; cbn [chainable] in Hp; try contradiction.
      exists kids, nm, pr, ks'.
      split; [reflexivity|].
      split; [simpl; rewrite !String.eqb_refl; reflexivity|].
      exact (IH _ _ _ Hrest Hrec). }
    destruct (unsnoc kids) as [[init lastNode]|] eqn:Hlast; [|exact (Hnew _ H)].
    destruct lastNode as [|nm pr body| |]; try exact (Hnew _ H).
    destruct (sameAtRule (AtRule nm pr body) p) eqn:Hsame; [|exact (Hnew _ H)].
    assert (Hsame' : forall ks, sameAtRule (AtRule nm pr (Some ks)) p = true)
      by (intro ks; exact Hsame).
    destruct body as [ks|].
    + apply bind_Some in H as ([ks' d'] & Hrec & H). injection H as <- _.
      exists init, nm, pr, ks'. split; [reflexivity|]. split; [apply Hsame'|].
      exact (IH _ _ _ Hrest Hrec).
    + destruct rest; [|discriminate]. injection H as <- _.
      exists init, nm, pr, [n]. split; [reflexivity|]. split; [apply Hsame'|].
      exists []. reflexivity.
Qed.

(** So does the atomic branch. *)
Lemma wrapFresh_nested chain n kids :
  Forall chainable chain ->
  nestedUnder chain n (kids ++ [fst (wrapFresh byteLength chain n)]).
Proof.
  intro Hchain. revert kids.
  induction Hchain as [|p rest Hp _ IH]; intro kids; simpl.
  - exists kids. reflexivity.
  - destruct (wrapFresh byteLength rest n) as [inner d].
    destruct p as [|nm pr body| |]; cbn [chainable] in Hp; try contradiction.
    exists kids, nm, pr, [inner].
    split; [reflexivity|].
    split; [simpl; rewrite !String.eqb_refl; reflexivity|].
    exact (IH []).
Qed.

Lemma placeNormal_nested size n chain proj st st' :
  Forall chainable chain ->
  placeNormal byteLength size n chain proj st = Some st' ->
  nestedUnder chain n (currentChunk st').
Proof.
  intro Hchain. unfold placeNormal, clone.
  generalize (if negb (size =? 0) && (size <? proj) && (0 <? List.length (currentChunk st))
              then startNewChunk st else st).
  intros s H. destruct chain as [|p rest].
  - injection H as <-. exists (currentChunk s). reflexivity.
  - cbn [List.length Nat.ltb Nat.leb] in H.
    apply bind_Some in H as ([chunk d] & Happ & H). injection H as <-.
    exact (appendUnder_nested _ _ _ _ _ Hchain Happ).
Qed.

Lemma placeAtomic_nested n chain st :
  Forall chainable chain ->
  nestedUnder chain n (currentChunk (placeAtomic byteLength n chain st)).
Proof.
  intro Hchain. unfold placeAtomic, clone.
  generalize (if 0 <? List.length (currentChunk st) then startNewChunk st else st).
  intros s. destruct chain as [|p rest].
  - exists (currentChunk s). reflexivity.
  - cbn [List.length Nat.ltb Nat.leb].
    pose proof (wrapFresh_nested (p :: rest) n (currentChunk s) Hchain) as Hw.
    destruct (wrapFresh byteLength (p :: rest) n) as [outer d]. exact Hw.
Qed.

Corollary Once_total blk size input :
  forallb (disciplined blk) input = true ->
  exists res, Once byteLength size input = Some res.
Proof.
  intro H. destruct (lossless_under_name_discipline blk size input H) as (res & Hres & _).
  exists res. exact Hres.
Qed.


(** C7, for a limit other than 0 -- the warnings of a run are exactly one
    per call of [addNode] whose node is larger than the limit, in call
    order, each naming the node (first selector of a rule, name of an
    at-rule) with its size and the limit; a call whose node is within the
    limit adds none.  Reporting changes nothing else: every top-level
    node is visited whatever was reported before it, and the run ends
    normally for every input that uses at-rule names consistently.  With
    the limit 0 nothing is ever reported. *)
Theorem one_warning_per_oversize_visit size input :
  (forall res,
      Once byteLength size input = Some res ->
      (size <> 0 ->
       result_warnings res
       = map (oversizeWarning byteLength size)
             (filter (exceeds byteLength size) (result_visited res)))
      /\ (size = 0 -> result_warnings res = [])
      /\ incl input (result_visited res))
  /\ (forall blk,
         forallb (disciplined blk) input = true ->
         exists res, Once byteLength size input = Some res).
Proof.
  split; [|intros blk; apply Once_total].
  intros res H. apply Once_Some in H as (st & Hrun & ->). simpl.
  assert (Hw : warnings st = expectedWarnings byteLength size (visited st)).
  { apply (forEach_addNode_warnings _ _ _ _ _ Hrun).
    unfold expectedWarnings. simpl. destruct (size =? 0); reflexivity. }
  unfold expectedWarnings in Hw.
  split; [|split].
  - intro Hsize. apply Nat.eqb_neq in Hsize. rewrite Hsize in Hw. exact Hw.
  - intros ->. exact Hw.
  - exact (forEach_addNode_visits _ _ _ _ _ Hrun).
Qed.

End Properties.

(** *** The budget *)

Section Budget.

Variable byteLength : node -> nat.

(** The serialisation of an at-rule block contains that of each child. *)
Hypothesis block_contains_children :
  forall nm pr ks, list_sum (map byteLength ks) <= byteLength (AtRule nm pr (Some ks)).

Lemma unitBytes_app l1 l2 :
  unitBytes byteLength (l1 ++ l2) = unitBytes byteLength l1 + unitBytes byteLength l2.
Proof.
  unfold unitBytes. rewrite flat_map_app, map_app, list_sum_app. reflexivity.
Qed.

Lemma unitBytes_single n :
  unitBytes byteLength [n] = list_sum (map byteLength (units n)).
Proof. unfold unitBytes. simpl. rewrite app_nil_r. reflexivity. Qed.

Lemma unitBytes_of_units l l' :
  flat_map units l = flat_map units l' ->
  unitBytes byteLength l = unitBytes byteLength l'.
Proof. unfold unitBytes. intros ->. reflexivity. Qed.

Lemma units_block nm pr ks :
  includes nonSplittableAtRules nm = false ->
  units (AtRule nm pr (Some ks)) = flat_map units ks.
Proof. intro H. cbn [units]. rewrite H. reflexivity. Qed.

Lemma unitBytes_block nm pr ks :
  includes nonSplittableAtRules nm = false ->
  unitBytes byteLength [AtRule nm pr (Some ks)] = unitBytes byteLength ks.
Proof.
  intro H. rewrite unitBytes_single, units_block by exact H. reflexivity.
Qed.

Lemma unitBytes_le n : unitBytes byteLength [n] <= byteLength n.
Proof.
  rewrite unitBytes_single.
  induction n as [sels ks _|nm pr ks IH|nm pr|p v|t] using node_nested_ind;
    try (simpl; lia).
  cbn [units]. destruct (includes nonSplittableAtRules nm); [simpl; lia|].
  eapply Nat.le_trans; [|apply block_contains_children].
  induction IH as [|k ks' Hk _ IHks]; simpl; [apply le_n|].
  rewrite map_app, list_sum_app. lia.
Qed.

Lemma appendUnder_nonempty chain n kids kids' d :
  appendUnder byteLength chain n kids = Some (kids', d) -> kids' <> [].
Proof.
  assert (Hsnoc : forall (l : list node) x, l ++ [x] <> [])
    by (intros l x E; destruct l; discriminate).
  destruct chain as [|p rest]; simpl; intro H.
  - injection H as <- _. apply Hsnoc.
  - assert (Hnew : forall r,
               ('(ks', d) <- appendUnder byteLength rest n [] ;;
                Some (kids ++ [withNodes p ks'], byteLength (shellOf p) + d)) = Some r ->
               fst r <> []).
    { intros r Hr. apply bind_Some in Hr as ([ks' d'] & _ & Hr).
      injection Hr as <-. apply Hsnoc. }
    destruct (unsnoc kids) as [[init lastNode]|]; [|exact (Hnew _ H)].
    destruct lastNode as [|nm pr body| |]; try exact (Hnew _ H).
    destruct (sameAtRule (AtRule nm pr body) p); [|exact (Hnew _ H)].
    destruct body as [ks|].
    + apply bind_Some in H as ([ks' d'] & _ & H). injection H as <- _. apply Hsnoc.
    + destruct rest; [|discriminate]. injection H as <- _. apply Hsnoc.
Qed.

(** On an empty parent the normal flow builds what the atomic branch
    builds. *)
Lemma appendUnder_nil chain n :
  appendUnder byteLength chain n []
  = Some ([fst (wrapFresh byteLength chain n)], snd (wrapFresh byteLength chain n)).
Proof.
  induction chain as [|p rest IH]; simpl; [reflexivity|].
  rewrite IH. simpl.
  destruct (wrapFresh byteLength rest n) as [inner d]. reflexivity.
Qed.

Lemma wrapFresh_units chain n :
  Forall chainable chain ->
  flat_map units [fst (wrapFresh byteLength chain n)] = units n.
Proof.
  induction 1 as [|p rest Hp _ IH]; simpl; [apply app_nil_r|].
  destruct (wrapFresh byteLength rest n) as [inner d]. simpl in *.
  destruct p as [|nm pr body| |]; cbn [chainable] in Hp; try contradiction.
  cbn [withNodes]. rewrite units_block by exact Hp. simpl.
  rewrite app_nil_r. rewrite app_nil_r in IH. rewrite app_nil_r. exact IH.
Qed.

Lemma appendUnder_units_le chain n : forall kids kids' d,
  Forall chainable chain ->
  appendUnder byteLength chain n kids = Some (kids', d) ->
  unitBytes byteLength kids'
  <= unitBytes byteLength kids + unitBytes byteLength [n].
Proof.
  induction chain as [|p rest IH]; intros kids kids' d Hchain H; simpl in H.
  - injection H as <- _. rewrite unitBytes_app. apply le_n.
  - inversion Hchain as [|? ? Hp Hrest]; subst.
    destruct p as [|nmp prp bodyp| |]; cbn [chainable] in Hp; try contradiction.
    assert (Hnew : forall r,
               ('(ks', d) <- appendUnder byteLength rest n [] ;;
                Some (kids ++ [withNodes (AtRule nmp prp bodyp) ks'],
                      byteLength (shellOf (AtRule nmp prp bodyp)) + d)) = Some r ->
               unitBytes byteLength (fst r)
               <= unitBytes byteLength kids + unitBytes byteLength [n]).
    { intros r Hr. apply bind_Some in Hr as ([ks' d'] & Hrec & Hr).
      injection Hr as <-. cbn [fst withNodes].
      rewrite unitBytes_app, unitBytes_block by exact Hp.
      pose proof (IH _ _ _ Hrest Hrec) as Hle.
      unfold unitBytes at 2 in Hle. simpl in Hle. lia. }
    destruct (unsnoc kids) as [[init lastNode]|] eqn:Hlast;
      [|exact (Hnew _ H)].
    destruct lastNode as [|nm pr body| |]; try exact (Hnew _ H).
    destruct (sameAtRule (AtRule nm pr body) (AtRule nmp prp bodyp)) eqn:Hsame;
      [|exact (Hnew _ H)].
    apply sameAtRule_name in Hsame as [body' Heq]. injection Heq as <- <- _.
    apply unsnoc_Some in Hlast as ->.
    destruct body as [ks|].
    + apply bind_Some in H as ([ks' d'] & Hrec & H). injection H as <- _.
      rewrite !unitBytes_app, !unitBytes_block by exact Hp.
      pose proof (IH _ _ _ Hrest Hrec). lia.
    + destruct rest; [|discriminate]. injection H as <- _.
      rewrite !unitBytes_app, unitBytes_block by exact Hp. lia.
Qed.

Lemma withinBudget_of_units size l l' :
  flat_map units l = flat_map units l' ->
  withinBudget byteLength size l' -> withinBudget byteLength size l.
Proof.
  intros E [Hle|[u Hu]]; [left | right].
  - rewrite (unitBytes_of_units _ _ E). exact Hle.
  - exists u. rewrite E. exact Hu.
Qed.

Lemma budget_startNewChunk size st :
  budgetInv byteLength size st -> budgetInv byteLength size (startNewChunk st).
Proof.
  intros (Hfinal & Hcur & _ & _). unfold budgetInv, startNewChunk. simpl.
  split; [|split; [left; apply Nat.le_0_l | split; [apply Nat.le_0_l | reflexivity]]].
  destruct (0 <? List.length (currentChunk st)); [|exact Hfinal].
  apply Forall_app. split; [exact Hfinal | constructor; [exact Hcur | constructor]].
Qed.

(** Appending a node, under shells or not, to a chunk that is empty or
    that the node fits into. *)
Lemma budget_setChunk size st chunk c n :
  budgetInv byteLength size st ->
  unitBytes byteLength chunk
  <= unitBytes byteLength (currentChunk st) + unitBytes byteLength [n] ->
  (currentChunk st = [] -> flat_map units chunk = flat_map units [n]) ->
  currentChunkSize st + byteLength n <= c ->
  chunk <> [] ->
  (currentChunk st = [] -> withinBudget byteLength size [n]) ->
  (currentChunk st <> [] -> currentChunkSize st + byteLength n <= size) ->
  budgetInv byteLength size (setChunk st chunk c).
Proof.
  intros (Hfinal & Hcur & Hbound & Hzero) Hle Hfresh Hc Hne Halone Hfit.
  pose proof (unitBytes_le n) as Hn.
  unfold budgetInv. simpl.
  split; [exact Hfinal|]. split; [|split; [lia | contradiction]].
  destruct (currentChunk st) as [|x rest] eqn:Ecur.
  - apply (withinBudget_of_units _ _ _ (Hfresh eq_refl)), Halone. reflexivity.
  - left. assert (currentChunkSize st + byteLength n <= size) by (apply Hfit; discriminate).
    lia.
Qed.

Lemma budget_placeNormal size n chain st st' :
  size <> 0 ->
  Forall chainable chain ->
  budgetInv byteLength size st ->
  withinBudget byteLength size [n] \/ currentChunkSize st + byteLength n <= size ->
  placeNormal byteLength size n chain (currentChunkSize st + byteLength n) st = Some st' ->
  budgetInv byteLength size st'.
Proof.
  intros Hsize Hchain Hst Halone. unfold placeNormal.
  set (s := if negb (size =? 0) && (size <? currentChunkSize st + byteLength n)
               && (0 <? List.length (currentChunk st))
            then startNewChunk st else st).
  assert (Hs : budgetInv byteLength size s
               /\ (currentChunk s = [] -> withinBudget byteLength size [n])
               /\ (currentChunk s <> [] -> currentChunkSize s + byteLength n <= size)).
  { unfold s.
    replace (negb (size =? 0)) with true
      by (symmetry; apply negb_true_iff, Nat.eqb_neq; exact Hsize).
    cbn [andb].
    destruct (size <? currentChunkSize st + byteLength n) eqn:Hover; cbn [andb].
    - apply Nat.ltb_lt in Hover.
      assert (Hw : withinBudget byteLength size [n])
        by (destruct Halone as [Hw|Hle]; [exact Hw | lia]).
      destruct (0 <? List.length (currentChunk st)) eqn:Hne.
      + split; [apply budget_startNewChunk; exact Hst|].
        split; [intros _; exact Hw | intro Hc; contradiction Hc; reflexivity].
      + apply length_pos_nil in Hne.
        split; [exact Hst|]. split; [intros _; exact Hw | intro Hc; contradiction].
    - apply Nat.ltb_ge in Hover.
      split; [exact Hst|]. split; [|intros _; exact Hover].
      intro Hempty. destruct Hst as (_ & _ & _ & Hzero).
      specialize (Hzero Hempty).
      destruct Halone as [Hw|Hle]; [exact Hw|].
      left. pose proof (unitBytes_le n). lia. }
  clearbody s. destruct Hs as (Hs & Hfresh & Hfit).
  destruct (0 <? List.length chain); intro H.
  - apply bind_Some in H as ([chunk d] & Happ & H). injection H as <-.
    apply budget_setChunk with (n := n); auto.
    + exact (appendUnder_units_le _ _ _ _ _ Hchain Happ).
    + intro Hempty. rewrite Hempty, appendUnder_nil in Happ.
      injection Happ as <- _. rewrite (wrapFresh_units chain (clone n) Hchain).
      simpl. rewrite app_nil_r. reflexivity.
    + lia.
    + exact (appendUnder_nonempty _ _ _ _ _ Happ).
  - injection H as <-.
    apply budget_setChunk with (n := n); auto.
    + rewrite unitBytes_app. apply le_n.
    + intros ->. reflexivity.
    + destruct (currentChunk s); discriminate.
Qed.

Lemma budget_placeAtomic size n chain st :
  Forall chainable chain ->
  budgetInv byteLength size st ->
  (exists u, units n = [u]) ->
  budgetInv byteLength size (placeAtomic byteLength n chain st).
Proof.
  intros Hchain Hst [u Hu]. unfold placeAtomic.
  set (s := if 0 <? List.length (currentChunk st) then startNewChunk st else st).
  assert (Hs : budgetInv byteLength size s /\ currentChunk s = []).
  { unfold s. destruct (0 <? List.length (currentChunk st)) eqn:Hne.
    - split; [apply budget_startNewChunk; exact Hst | reflexivity].
    - split; [exact Hst | apply length_pos_nil; exact Hne]. }
  clearbody s. destruct Hs as [Hs Hempty].
  assert (Halone : withinBudget byteLength size [n]).
  { right. exists u. simpl. rewrite app_nil_r. exact Hu. }
  destruct (0 <? List.length chain).
  - pose proof (wrapFresh_units chain (clone n) Hchain) as Hw.
    destruct (wrapFresh byteLength chain (clone n)) as [outer d]. simpl fst in Hw.
    apply budget_setChunk with (n := n); auto.
    + rewrite Hempty. simpl app.
      rewrite (unitBytes_of_units [outer] [n]);
        [apply Nat.le_add_l | rewrite Hw; simpl; rewrite app_nil_r; reflexivity].
    + intros _. rewrite Hempty. simpl app. rewrite Hw. simpl.
      rewrite app_nil_r. reflexivity.
    + lia.
    + rewrite Hempty. discriminate.
    + intro Hc. contradiction.
  - apply budget_setChunk with (n := n); auto.
    + rewrite unitBytes_app. apply le_n.
    + intros ->. reflexivity.
    + rewrite Hempty. discriminate.
    + intro Hc. contradiction.
Qed.

Lemma warnOversize_budget size n st :
  budgetInv byteLength size st ->
  budgetInv byteLength size (warnOversize byteLength size n (logVisit n st))
  /\ currentChunkSize (warnOversize byteLength size n (logVisit n st))
     = currentChunkSize st.
Proof.
  unfold warnOversize.
  destruct (negb (size =? 0) && (size <? byteLength n)); auto.
Qed.

Lemma addNode_budget size n : forall chain st st',
  size <> 0 ->
  Forall chainable chain ->
  opaqueFree n = true ->
  budgetInv byteLength size st ->
  addNode byteLength size n chain st = Some st' ->
  budgetInv byteLength size st'.
Proof.
  induction n as [sels ks _|nm pr ks IH|nm pr|p v|t] using node_nested_ind;
    intros chain st st' Hsize Hchain Hfree Hst H;
    apply addNode_outcome in H;
    match type of H with
    | outcome _ _ ?m _ _ _ =>
        destruct (warnOversize_budget size m st Hst) as [Hst1 _];
        generalize dependent (warnOversize byteLength size m (logVisit m st))
    end; intros st1 H Hst1;
    destruct H as [? ? ? E Hatomic ->|? ? ? E Hna Hnc _ _ Hkids ->
                   |? ? ? E Hna _ _ _ H|Hwhy H];
    try discriminate E;
    try (apply budget_placeNormal with (2 := Hchain) (5 := H); auto;
         left; right; eexists; simpl; reflexivity).
  - injection E as <- <- <-.
    apply budget_placeAtomic; auto.
    exists (AtRule nm pr (Some ks)). cbn [units]. rewrite Hatomic. reflexivity.
  - injection E as <- <- <-. exfalso.
    cbn [opaqueFree] in Hfree. apply andb_prop in Hfree as [Hop _].
    apply negb_true_iff in Hop. unfold opaque in Hop.
    rewrite Hna, Hnc in Hop.
    destruct ks; [contradiction Hkids; reflexivity | discriminate Hop].
  - injection E as <- <- <-.
    cbn [opaqueFree] in Hfree. apply andb_prop in Hfree as [_ Hfree].
    rewrite Hna in Hfree. cbn [orb] in Hfree. rewrite forallb_forall in Hfree.
    apply (forEach_ind _ (fun s s' => budgetInv byteLength size s ->
                                      budgetInv byteLength size s'))
      with (arr := ks) (4 := H); auto.
    rewrite Forall_forall in IH. apply Forall_forall. intros child Hin s s' Hrun Hs.
    apply (IH child Hin (chain ++ [AtRule nm pr (Some ks)]) s s'); auto.
    apply Forall_app. split; [exact Hchain|]. constructor; [exact Hna | constructor].
  - apply budget_placeNormal with (2 := Hchain) (5 := H); auto.
    destruct (Hwhy nm pr ks eq_refl) as [->|[Hz|Hle]]; [|contradiction|right; exact Hle].
    destruct (includes nonSplittableAtRules nm) eqn:Hatomic.
    + left. right. eexists. cbn [flat_map units]. rewrite Hatomic. reflexivity.
    + left. left. rewrite unitBytes_block by exact Hatomic. apply Nat.le_0_l.
Qed.

(** C2, as the code has it -- the limit bounds the estimated sizes of the
    units a chunk holds, not its serialised size.  For a limit other than
    0 and an input without opaque at-rules, the units of every chunk
    (its rules, declarations, comments, at-rule statements and atomic
    at-rules; the conditional at-rules around them are not counted) have
    estimated sizes that sum to at most the limit, unless the chunk holds
    one unit only. *)
Theorem chunk_units_within_budget size input :
  size <> 0 ->
  forallb opaqueFree input = true ->
  (forall res,
      Once byteLength size input = Some res ->
      Forall (withinBudget byteLength size) (chunks res))
  /\ (forall blk,
         forallb (disciplined blk) input = true ->
         exists res, Once byteLength size input = Some res).
Proof.
  intros Hsize Hfree. split; [|intros blk; apply Once_total].
  intros res H. apply Once_Some in H as (st & Hrun & ->). cbn [chunks].
  assert (Hst : budgetInv byteLength size st).
  { apply (forEach_ind _ (fun s s' => budgetInv byteLength size s ->
                                      budgetInv byteLength size s'))
      with (arr := input) (4 := Hrun); auto.
    - rewrite forallb_forall in Hfree. apply Forall_forall. intros n Hin s s' Hn Hs.
      apply (addNode_budget size n [] s s'); auto.
    - unfold budgetInv. simpl. split; [constructor|].
      split; [left; apply Nat.le_0_l|]. split; [apply Nat.le_0_l | reflexivity]. }
  apply budget_startNewChunk in Hst. destruct Hst as [Hfinal _]. exact Hfinal.
Qed.

End Budget.

Section Totals.

Variable byteLength : node -> nat.

(** The byte length of the whole input as serialised, which contains the
    serialisation of each top-level node. *)
Variable rootByteLength : root -> nat.
Hypothesis rootByteLength_children :
  forall r, list_sum (map byteLength r) <= rootByteLength r.

(** C8, as the code has it -- an input whose serialised size is within
    the limit is never split and reports nothing: when it has a node the
    result is exactly one chunk, the input's top-level nodes in order;
    when it has none there is no chunk at all. *)
Theorem within_limit_single_chunk size input :
  rootByteLength input <= size ->
  exists res,
    Once byteLength size input = Some res
    /\ result_warnings res = []
    /\ (input <> [] -> chunks res = [input])
    /\ (input = [] -> chunks res = []).
Proof.
  intro Hfit. eexists. split.
  - apply Once_fits. right.
    pose proof (rootByteLength_children input). lia.
  - simpl. split; [reflexivity|]. split.
    + intro Hne. destruct input; [contradiction | reflexivity].
    + intros ->. reflexivity.
Qed.

End Totals.

(** ** Further properties of the partitioner *)

Section Reading.

Variable byteLength : node -> nat.
Variable X : Type.

(** A reading that looks through the at-rule blocks [addNode] descends
    into and finds nothing in an at-rule statement. *)
Variable f : node -> list X.
Hypothesis f_block :
  forall nm pr ks,
    includes nonSplittableAtRules nm = false ->
    f (AtRule nm pr (Some ks)) = flat_map f ks.
Hypothesis f_statement :
  forall nm pr,
    includes nonSplittableAtRules nm = false -> f (AtRule nm pr None) = [].

Lemma appendUnder_reading chain n : forall kids kids' d,
  Forall chainable chain ->
  appendUnder byteLength chain n kids = Some (kids', d) ->
  flat_map f kids' = flat_map f kids ++ f n.
Proof.
  induction chain as [|p rest IH]; intros kids kids' d Hchain H; simpl in H.
  - injection H as <- _. apply flat_map_snoc.
  - inversion Hchain as [|? ? Hp Hrest]; subst.
    destruct p as [|nmp prp bodyp| |]; cbn [chainable] in Hp; try contradiction.
    assert (Hnew : forall r,
               ('(ks', d) <- appendUnder byteLength rest n [] ;;
                Some (kids ++ [withNodes (AtRule nmp prp bodyp) ks'],
                      byteLength (shellOf (AtRule nmp prp bodyp)) + d)) = Some r ->
               flat_map f (fst r) = flat_map f kids ++ f n).
    { intros r Hr. apply bind_Some in Hr as ([ks' d'] & Hrec & Hr).
      injection Hr as <-. cbn [fst withNodes].
      rewrite flat_map_snoc, f_block by exact Hp.
      rewrite (IH _ _ _ Hrest Hrec). reflexivity. }
    destruct (unsnoc kids) as [[init lastNode]|] eqn:Hlast;
      [|exact (Hnew _ H)].
    destruct lastNode as [|nm pr body| |]; try exact (Hnew _ H).
    destruct (sameAtRule (AtRule nm pr body) (AtRule nmp prp bodyp)) eqn:Hsame;
      [|exact (Hnew _ H)].
    apply sameAtRule_name in Hsame as [body' Heq]. injection Heq as <- <- _.
    apply unsnoc_Some in Hlast as ->.
    destruct body as [ks|].
    + apply bind_Some in H as ([ks' d'] & Hrec & H). injection H as <- _.
      rewrite !flat_map_snoc, !f_block by exact Hp.
      rewrite (IH _ _ _ Hrest Hrec). apply app_assoc.
    + destruct rest; [|discriminate]. injection H as <- _.
      rewrite !flat_map_snoc, f_block, f_statement by exact Hp.
      simpl. rewrite !app_nil_r. reflexivity.
Qed.

Lemma wrapFresh_reading chain n :
  Forall chainable chain ->
  f (fst (wrapFresh byteLength chain n)) = f n.
Proof.
  induction 1 as [|p rest Hp _ IH]; simpl; [reflexivity|].
  destruct (wrapFresh byteLength rest n) as [inner d]. simpl in *.
  destruct p as [|nm pr body| |]; cbn [chainable] in Hp; try contradiction.
  cbn [withNodes]. rewrite f_block by exact Hp. simpl.
  rewrite app_nil_r. exact IH.
Qed.

Lemma startNewChunk_reading st :
  placedReading f (startNewChunk st) = placedReading f st.
Proof.
  unfold placedReading, startNewChunk. simpl.
  destruct (currentChunk st) as [|x rest]; simpl; [reflexivity|].
  rewrite flat_map_snoc, app_nil_r. reflexivity.
Qed.

Lemma setChunk_reading st chunk sz n :
  flat_map f chunk = flat_map f (currentChunk st) ++ f n ->
  placedReading f (setChunk st chunk sz) = placedReading f st ++ f n.
Proof.
  unfold placedReading. simpl. intros ->. apply app_assoc.
Qed.

Lemma warnOversize_reading size n st :
  placedReading f (warnOversize byteLength size n (logVisit n st))
  = placedReading f st.
Proof.
  unfold warnOversize.
  destruct (negb (size =? 0) && (size <? byteLength n)); reflexivity.
Qed.

Lemma placeNormal_reading size n chain proj st st' :
  Forall chainable chain ->
  placeNormal byteLength size n chain proj st = Some st' ->
  placedReading f st' = placedReading f st ++ f n.
Proof.
  intros Hchain. unfold placeNormal.
  set (s := if negb (size =? 0) && (size <? proj) && (0 <? List.length (currentChunk st))
            then startNewChunk st else st).
  assert (Hs : placedReading f s = placedReading f st).
  { unfold s. destruct (negb (size =? 0) && (size <? proj)
                        && (0 <? List.length (currentChunk st)));
      [apply startNewChunk_reading | reflexivity]. }
  rewrite <- Hs.
  destruct (0 <? List.length chain); intro H.
  - apply bind_Some in H as ([chunk d] & Happ & H). injection H as <-.
    apply setChunk_reading.
    exact (appendUnder_reading _ _ _ _ _ Hchain Happ).
  - injection H as <-. apply setChunk_reading, flat_map_snoc.
Qed.

Lemma placeAtomic_reading n chain st :
  Forall chainable chain ->
  placedReading f (placeAtomic byteLength n chain st) = placedReading f st ++ f n.
Proof.
  intros Hchain. unfold placeAtomic.
  set (s := if 0 <? List.length (currentChunk st) then startNewChunk st else st).
  assert (Hs : placedReading f s = placedReading f st).
  { unfold s. destruct (0 <? List.length (currentChunk st));
      [apply startNewChunk_reading | reflexivity]. }
  rewrite <- Hs.
  destruct (0 <? List.length chain).
  - pose proof (wrapFresh_reading chain (clone n) Hchain) as Hw.
    destruct (wrapFresh byteLength chain (clone n)) as [outer d]. simpl in Hw.
    apply setChunk_reading. rewrite flat_map_snoc, Hw. reflexivity.
  - apply setChunk_reading, flat_map_snoc.
Qed.

Lemma addNode_reading size n : forall chain st st',
  Forall chainable chain ->
  addNode byteLength size n chain st = Some st' ->
  placedReading f st' = placedReading f st ++ f n.
Proof.
  induction n as [sels ks _|nm pr ks IH|nm pr|p v|t] using node_nested_ind;
    intros chain st st' Hchain H; apply addNode_outcome in H;
    match goal with
    | |- _ = _ ++ f ?m => rewrite <- (warnOversize_reading size m st)
    end;
    destruct H as [? ? ? E ? ->|? ? ? E ? ? ? ? ? ->|? ? ? E Hna ? ? ? H|? H];
    try discriminate E;
    eauto using placeNormal_reading, placeAtomic_reading.
  - unfold placeOpaque. apply setChunk_reading, flat_map_snoc.
  - injection E as <- <- <-.
    rewrite f_block by exact Hna.
    apply (forEach_accumulates _ (placedReading f) f) with (2 := H).
    eapply Forall_impl; [|exact IH]. intros child Hchild s s'.
    apply Hchild. apply Forall_app. split; [exact Hchain|].
    constructor; [exact Hna | constructor].
Qed.

Lemma Once_reading size input res :
  Once byteLength size input = Some res ->
  flat_map (flat_map f) (chunks res) = flat_map f input.
Proof.
  intro H. apply Once_Some in H as (st & Hrun & ->). cbn [chunks].
  assert (Hst : placedReading f st = flat_map f input).
  { apply (forEach_accumulates _ (placedReading f) f) with (2 := Hrun).
    apply Forall_forall. intros n _ s s'. apply addNode_reading. constructor. }
  rewrite <- Hst, <- startNewChunk_reading.
  unfold placedReading. simpl. rewrite app_nil_r. reflexivity.
Qed.

End Reading.

Section Further.

Variable byteLength : node -> nat.

(** X1 -- whatever the input, the rules, declarations and comments of the
    chunks, read in order through the at-rule blocks, are those of the
    input: only an at-rule statement can go missing. *)
Theorem solid_content_kept size input res :
  Once byteLength size input = Some res ->
  flat_map (flat_map solid) (chunks res) = flat_map solid input.
Proof.
  apply Once_reading; intros; reflexivity.
Qed.

(** *** How many chunks *)

(** A node appended to the chunk under construction, after a flush or
    not, opens at most one chunk. *)
Lemma chunkCount_place st s chunk c :
  s = st \/ s = startNewChunk st ->
  chunk <> [] ->
  chunkCount st <= chunkCount (setChunk s chunk c) <= chunkCount st + 1
  /\ 0 < chunkCount (setChunk s chunk c).
Proof.
  intros Hs Hne.
  assert (Hc : chunkCount (setChunk s chunk c) = List.length (finalChunks s) + 1).
  { unfold chunkCount. simpl. destruct chunk; [contradiction | reflexivity]. }
  rewrite Hc. destruct Hs as [-> | ->].
  - unfold chunkCount. destruct (0 <? List.length (currentChunk st)); lia.
  - rewrite chunkCount_startNewChunk. lia.
Qed.

Lemma snoc_not_nil {A : Type} (l : list A) (x : A) : l ++ [x] <> [].
Proof. destruct l; discriminate. Qed.

Lemma placeNormal_count size n chain proj st st' :
  placeNormal byteLength size n chain proj st = Some st' ->
  chunkCount st <= chunkCount st' <= chunkCount st + 1 /\ 0 < chunkCount st'.
Proof.
  unfold placeNormal.
  set (s := if negb (size =? 0) && (size <? proj) && (0 <? List.length (currentChunk st))
            then startNewChunk st else st).
  assert (Hs : s = st \/ s = startNewChunk st).
  { unfold s. destruct (negb (size =? 0) && (size <? proj)
                        && (0 <? List.length (currentChunk st))); auto. }
  clearbody s.
  destruct (0 <? List.length chain); intro H.
  - apply bind_Some in H as ([chunk d] & Happ & H). injection H as <-.
    apply chunkCount_place; [exact Hs|].
    exact (appendUnder_nonempty byteLength _ _ _ _ _ Happ).
  - injection H as <-. apply chunkCount_place; [exact Hs | apply snoc_not_nil].
Qed.

Lemma placeAtomic_count n chain st :
  chunkCount st <= chunkCount (placeAtomic byteLength n chain st) <= chunkCount st + 1
  /\ 0 < chunkCount (placeAtomic byteLength n chain st).
Proof.
  unfold placeAtomic.
  set (s := if 0 <? List.length (currentChunk st) then startNewChunk st else st).
  assert (Hs : s = st \/ s = startNewChunk st).
  { unfold s. destruct (0 <? List.length (currentChunk st)); auto. }
  clearbody s.
  destruct (0 <? List.length chain).
  - destruct (wrapFresh byteLength chain (clone n)) as [outer d].
    apply chunkCount_place; [exact Hs | apply snoc_not_nil].
  - apply chunkCount_place; [exact Hs | apply snoc_not_nil].
Qed.

Lemma warnOversize_count size n st :
  chunkCount (warnOversize byteLength size n (logVisit n st)) = chunkCount st.
Proof.
  unfold warnOversize.
  destruct (negb (size =? 0) && (size <? byteLength n)); reflexivity.
Qed.

Lemma forEach_count {A : Type} (f : A -> state -> option state) (g : A -> nat) arr :
  Forall (fun x => forall st st',
              f x st = Some st' ->
              chunkCount st <= chunkCount st' <= chunkCount st + g x
              /\ 0 < chunkCount st') arr ->
  forall st st',
    forEach f arr st = Some st' ->
    chunkCount st <= chunkCount st' <= chunkCount st + list_sum (map g arr)
    /\ (arr <> [] -> 0 < chunkCount st').
Proof.
  induction 1 as [|x rest Hx _ IH]; intros st st' H; simpl in H.
  - injection H as <-. simpl. split; [lia | contradiction].
  - apply bind_Some in H as (s1 & H1 & H2).
    destruct (Hx _ _ H1) as [Hb1 Hp1]. destruct (IH _ _ H2) as [Hb2 _].
    simpl. split; [lia|]. intros _. lia.
Qed.

Lemma hasActualContent_not_nil kids : hasActualContent kids = true -> kids <> [].
Proof. intros H ->. discriminate H. Qed.

(** A call of [addNode] never closes a chunk without opening one, leaves
    a chunk behind, and opens no more chunks than it makes calls. *)
Lemma addNode_count size n : forall chain st st',
  addNode byteLength size n chain st = Some st' ->
  chunkCount st <= chunkCount st' <= chunkCount st + visitable n
  /\ 0 < chunkCount st'.
Proof.
  induction n as [sels ks _|nm pr ks IH|nm pr|p v|t] using node_nested_ind;
    intros chain st st' H; apply addNode_outcome in H;
    match type of H with
    | outcome _ _ ?m _ _ _ => rewrite <- (warnOversize_count size m st)
    end;
    destruct H as [? ? ? E ? ->|? ? ? E ? ? ? ? ? ->|? ? ? E Hna Hc ? ? H|? H];
    try discriminate E;
    try (apply placeNormal_count in H; cbn [visitable]; lia).
  - pose proof (placeAtomic_count (AtRule nm pr (Some ks)) chain
                  (warnOversize byteLength size (AtRule nm pr (Some ks))
                                (logVisit (AtRule nm pr (Some ks)) st))).
    cbn [visitable]. lia.
  - assert (Hp : forall s,
               chunkCount s <= chunkCount (placeOpaque byteLength (AtRule nm pr (Some ks)) s)
                            <= chunkCount s + 1
               /\ 0 < chunkCount (placeOpaque byteLength (AtRule nm pr (Some ks)) s)).
    { intro s. apply chunkCount_place; [left; reflexivity | apply snoc_not_nil]. }
    specialize (Hp (warnOversize byteLength size (AtRule nm pr (Some ks))
                                 (logVisit (AtRule nm pr (Some ks)) st))).
    cbn [visitable]. lia.
  - injection E as <- <- <-.
    cbn [visitable]. rewrite Hna, Hc. cbn [negb andb].
    apply (forEach_count _ visitable) in H.
    + destruct H as [Hb Hpos].
      specialize (Hpos (hasActualContent_not_nil _ Hc)). lia.
    + eapply Forall_impl; [|exact IH]. intros child Hchild s s'. apply Hchild.
Qed.

Lemma forEach_addNode_count size input chain st st' :
  forEach (fun n st => addNode byteLength size n chain st) input st = Some st' ->
  chunkCount st <= chunkCount st' <= chunkCount st + list_sum (map visitable input)
  /\ (input <> [] -> 0 < chunkCount st').
Proof.
  apply (forEach_count _ visitable).
  apply Forall_forall. intros n _ s s'. apply addNode_count.
Qed.

(** X3 -- a result without chunks comes from an input without nodes, and only
    from one. *)
Theorem no_chunk_iff_no_node size input res :
  Once byteLength size input = Some res ->
  (chunks res = [] <-> input = []).
Proof.
  intro H. apply Once_Some in H as (st & Hrun & ->). cbn [chunks].
  pose proof (chunkCount_startNewChunk st) as Hlen.
  destruct (forEach_addNode_count _ _ _ _ _ Hrun) as [Hb Hpos].
  split.
  - intro E. rewrite E in Hlen. simpl in Hlen.
    destruct input as [|n rest]; [reflexivity|].
    assert (0 < chunkCount st) by (apply Hpos; discriminate). lia.
  - intros ->. simpl in Hrun. injection Hrun as <-. reflexivity.
Qed.

(** X4 -- there are never more chunks than calls of [addNode] the input can
    cause; for an input whose top-level nodes are not descended into,
    never more chunks than top-level nodes. *)
Theorem chunk_count_bounded size input res :
  Once byteLength size input = Some res ->
  List.length (chunks res) <= list_sum (map visitable input)
  /\ (Forall (fun n => splittable n = false) input ->
      List.length (chunks res) <= List.length input).
Proof.
  intro H. apply Once_Some in H as (st & Hrun & ->). cbn [chunks].
  rewrite chunkCount_startNewChunk.
  destruct (forEach_addNode_count _ _ _ _ _ Hrun) as [Hb _].
  change (chunkCount initialState) with 0 in Hb.
  split; [lia|]. intro Hflat.
  assert (Hsum : list_sum (map visitable input) = List.length input).
  { clear Hrun Hb. induction Hflat as [|n rest Hn _ IH]; [reflexivity|].
    simpl map. simpl list_sum. simpl List.length. rewrite IH.
    destruct n as [|nm pr [kids|]| |]; try reflexivity.
    cbn [visitable]. unfold splittable in Hn. rewrite Hn. reflexivity. }
  lia.
Qed.

(** *** Extending the input *)

Lemma forEach_app {A S : Type} (f : A -> S -> option S) xs ys st :
  forEach f (xs ++ ys) st = (s <- forEach f xs st ;; forEach f ys s).
Proof.
  revert st. induction xs as [|x rest IH]; intro st; simpl; [reflexivity|].
  destruct (f x st) as [s1|]; simpl; [apply IH | reflexivity].
Qed.

Lemma startNewChunk_extends st :
  exists more, finalChunks (startNewChunk st) = finalChunks st ++ more.
Proof.
  unfold startNewChunk. simpl.
  destruct (0 <? List.length (currentChunk st)).
  - eexists. reflexivity.
  - exists []. symmetry. apply app_nil_r.
Qed.

(** The finished chunks and the warnings only grow at their end. *)
Lemma forEach_addNode_extends size input chain st st' :
  forEach (fun n st => addNode byteLength size n chain st) input st = Some st' ->
  (exists more, finalChunks st' = finalChunks st ++ more)
  /\ (exists w, warnings st' = warnings st ++ w).
Proof.
  assert (Hsame : forall s s' : state,
             finalChunks s' = finalChunks s \/ finalChunks s' = finalChunks (startNewChunk s) ->
             warnings s' = warnings s ->
             (exists more, finalChunks s' = finalChunks s ++ more)
             /\ (exists w, warnings s' = warnings s ++ w)).
  { intros s s' [E | E] Ew; (split; [|exists []; rewrite app_nil_r; exact Ew]).
    - exists []. rewrite app_nil_r. exact E.
    - rewrite E. apply startNewChunk_extends. }
  apply (forEach_addNode_rel byteLength
           (fun s s' => (exists more, finalChunks s' = finalChunks s ++ more)
                        /\ (exists w, warnings s' = warnings s ++ w))).
  - intro s. split; exists []; symmetry; apply app_nil_r.
  - intros s1 s2 s3 [[m1 E1] [w1 F1]] [[m2 E2] [w2 F2]].
    split; [exists (m1 ++ m2) | exists (w1 ++ w2)];
      rewrite app_assoc; congruence.
  - intros n s. split.
    + exists []. rewrite app_nil_r. apply warnOversize_finalChunks.
    + eexists. apply (warnOversize_log byteLength size n s).
  - intros n c s. apply Hsame;
      [apply placeAtomic_finalChunks | apply placeAtomic_log].
  - intros n s. apply Hsame; [left; reflexivity | reflexivity].
  - intros n c proj s s' H. apply Hsame.
    + exact (placeNormal_finalChunks _ _ _ _ _ _ _ H).
    + exact (proj1 (placeNormal_log _ _ _ _ _ _ _ H)).
Qed.

Lemma removelast_extends {A : Type} (l : list A) : exists t, l = removelast l ++ t.
Proof.
  destruct l as [|x rest]; [exists []; reflexivity|].
  exists [last (x :: rest) x]. apply app_removelast_last. discriminate.
Qed.

(** X5 -- when a run on an input with more nodes after it returns, so does the
    run on the input alone, and the longer run keeps every chunk of the
    shorter one but the last (the one that was still under construction)
    and every warning, in front of what it adds. *)
Theorem finished_chunks_stable size xs ys r2 :
  Once byteLength size (xs ++ ys) = Some r2 ->
  exists r1 more w,
    Once byteLength size xs = Some r1
    /\ chunks r2 = removelast (chunks r1) ++ more
    /\ result_warnings r2 = result_warnings r1 ++ w.
Proof.
  intro H. apply Once_Some in H as (st2 & Hrun & ->).
  rewrite forEach_app in Hrun. apply bind_Some in Hrun as (st1 & Hxs & Hys).
  destruct (forEach_addNode_extends _ _ _ _ _ Hys) as [[m Hm] [w Hw]].
  destruct (startNewChunk_extends st2) as [m2 Hm2].
  unfold Once. rewrite Hxs. cbn [bind].
  eexists. cbn [chunks result_warnings].
  assert (Hfront : exists t, finalChunks st1 = removelast (finalChunks (startNewChunk st1)) ++ t).
  { unfold startNewChunk. simpl.
    destruct (0 <? List.length (currentChunk st1)).
    - exists []. rewrite removelast_last, app_nil_r. reflexivity.
    - apply removelast_extends. }
  destruct Hfront as [t Ht].
  exists (t ++ m ++ m2), w. split; [reflexivity|]. split; [|exact Hw].
  rewrite Hm2, Hm. rewrite Ht at 1. rewrite <- !app_assoc. reflexivity.
Qed.

(** *** Inputs that are not descended into *)

Lemma placedNodes_startNewChunk st :
  placedNodes (startNewChunk st) = placedNodes st.
Proof.
  unfold placedNodes, startNewChunk. simpl.
  destruct (currentChunk st) as [|x rest] eqn:E; simpl.
  - reflexivity.
  - rewrite concat_app. simpl. rewrite !app_nil_r. reflexivity.
Qed.

Lemma placedNodes_append st s n c :
  s = st \/ s = startNewChunk st ->
  placedNodes (setChunk s (currentChunk s ++ [clone n]) c) = placedNodes st ++ [n].
Proof.
  intros Hs.
  assert (E : placedNodes s = placedNodes st)
    by (destruct Hs as [-> | ->]; [reflexivity | apply placedNodes_startNewChunk]).
  rewrite <- E. unfold placedNodes, clone. simpl. apply app_assoc.
Qed.

(** A top-level call on a node that is not descended into never throws
    and leaves the node itself as the last top-level node of the chunk
    under construction. *)
Lemma addNode_top size n st :
  splittable n = false ->
  exists st',
    addNode byteLength size n [] st = Some st'
    /\ placedNodes st' = placedNodes st ++ [n].
Proof.
  intro Hflat. rewrite addNode_unfold. cbv zeta.
  set (st1 := warnOversize byteLength size n (logVisit n st)).
  assert (E1 : placedNodes st1 = placedNodes st).
  { unfold st1, warnOversize.
    destruct (negb (size =? 0) && (size <? byteLength n)); reflexivity. }
  rewrite <- E1. clearbody st1.
  assert (Hnormal : forall proj,
             exists st',
               placeNormal byteLength size n [] proj st1 = Some st'
               /\ placedNodes st' = placedNodes st1 ++ [n]).
  { intro proj. unfold placeNormal.
    change (0 <? List.length (@nil node)) with false. cbv iota.
    eexists. split; [reflexivity|]. apply placedNodes_append.
    destruct (negb (size =? 0) && (size <? proj)
              && (0 <? List.length (currentChunk st1))); auto. }
  destruct n as [sels ks|nm pr [kids|]|p v|t]; try apply Hnormal.
  destruct ((0 <? List.length kids) && negb (size =? 0)
            && (size <? currentChunkSize st1 + byteLength (AtRule nm pr (Some kids))));
    [|apply Hnormal].
  unfold splittable in Hflat.
  destruct (includes nonSplittableAtRules nm).
  - eexists. split; [reflexivity|].
    unfold placeAtomic.
    change (0 <? List.length (@nil node)) with false. cbv iota.
    apply placedNodes_append.
    destruct (0 <? List.length (currentChunk st1)); auto.
  - cbn [negb andb] in Hflat. rewrite Hflat. cbn [negb].
    eexists. split; [reflexivity|].
    unfold placeOpaque. apply placedNodes_append. left. reflexivity.
Qed.

(** X6 -- for an input none of whose top-level nodes can be descended into,
    [Once] never throws and the chunks are consecutive slices of the
    input: put end to end they are the input, node for node. *)
Theorem flat_input_sliced size input :
  Forall (fun n => splittable n = false) input ->
  exists res,
    Once byteLength size input = Some res
    /\ List.concat (chunks res) = input.
Proof.
  intro Hflat. unfold Once.
  destruct (forEach_total
              (fun n st => addNode byteLength size n [] st)
              (fun _ => True) placedNodes (fun n => [n]) input) with (st := initialState)
    as (st & -> & _ & Hnodes).
  - eapply Forall_impl; [|exact Hflat]. intros n Hn s _.
    destruct (addNode_top size n s Hn) as (s' & Hs' & Hp). eauto.
  - exact I.
  - cbn [bind]. eexists. split; [reflexivity|]. cbn [chunks].
    assert (Hid : forall l : list node, flat_map (fun n => [n]) l = l)
      by (intro l; induction l as [|x rest IH]; simpl; [|rewrite IH]; reflexivity).
    rewrite Hid in Hnodes. simpl in Hnodes. rewrite <- Hnodes.
    rewrite <- (placedNodes_startNewChunk st).
    unfold placedNodes. simpl. rewrite app_nil_r. reflexivity.
Qed.

(** *** Shells *)

(** X8 -- a node placed by [addNode] itself (not descended into, not opaque)
    ends up as the last node under at-rules matching the whole parent
    chain. *)
Theorem placed_under_parent_chain size n chain st st' :
  Forall chainable chain ->
  opaque n = false ->
  splittable n = false \/ size = 0 \/ currentChunkSize st + byteLength n <= size ->
  addNode byteLength size n chain st = Some st' ->
  nestedUnder chain n (currentChunk st').
Proof.
  intros Hchain Hop Hwhole H. apply addNode_outcome in H.
  assert (Hc : currentChunkSize (warnOversize byteLength size n (logVisit n st))
               = currentChunkSize st).
  { unfold warnOversize.
    destruct (negb (size =? 0) && (size <? byteLength n)); reflexivity. }
  destruct H as [? ? ? E ? ->|? ? ? E Hna Hnc ? ? Hk ->|? ? ? E Hna Hcont Hz Hover H|? H];
    try rewrite Hc in *.
  - apply placeAtomic_nested. exact Hchain.
  - exfalso. subst n. unfold opaque in Hop. rewrite Hna, Hnc in Hop.
    destruct kids; [contradiction Hk; reflexivity | discriminate Hop].
  - exfalso. subst n. unfold splittable in Hwhole. rewrite Hna, Hcont in Hwhole.
    destruct Hwhole as [Hw|[Hw|Hw]]; [discriminate | contradiction | lia].
  - exact (placeNormal_nested byteLength _ _ _ _ _ _ Hchain H).
Qed.

(** Under a chain that is already in place, the loop over the chain
    takes every existing shell: nothing is added to the parent, no shell
    byte is counted. *)
Lemma appendUnder_again chain : forall n1 n2 kids,
  Forall chainable chain ->
  nestedUnder chain n1 kids ->
  exists kids',
    appendUnder byteLength chain n2 kids = Some (kids', 0)
    /\ nestedUnder chain n2 kids'
    /\ (chain <> [] -> List.length kids' = List.length kids).
Proof.
  induction chain as [|p rest IH]; intros n1 n2 kids Hchain Hnested.
  - simpl. exists (kids ++ [n2]). split; [reflexivity|].
    split; [exists kids; reflexivity | contradiction].
  - inversion Hchain as [|? ? Hp Hrest]; subst.
    destruct Hnested as (init & nm & pr & ks & -> & Hsame & Hin).
    destruct (IH n1 n2 ks Hrest Hin) as (ks' & Hrec & Hnest' & _).
    exists (init ++ [AtRule nm pr (Some ks')]).
    split; [|split].
    + simpl. rewrite unsnoc_snoc, Hsame, Hrec. reflexivity.
    + exists init, nm, pr, ks'. split; [reflexivity|]. split; [exact Hsame | exact Hnest'].
    + intros _. rewrite !length_app. reflexivity.
Qed.

(** X9 -- two nodes placed one after the other under the same non-empty chain
    share the shells when the second fits: the second placement counts
    the bytes of the node only, flushes nothing and adds no top-level
    node to the chunk. *)
Theorem shells_shared size n1 n2 chain proj st st1 :
  Forall chainable chain ->
  chain <> [] ->
  placeNormal byteLength size n1 chain proj st = Some st1 ->
  size = 0 \/ currentChunkSize st1 + byteLength n2 <= size ->
  exists st2,
    placeNormal byteLength size n2 chain (currentChunkSize st1 + byteLength n2) st1
    = Some st2
    /\ currentChunkSize st2 = currentChunkSize st1 + byteLength n2
    /\ List.length (currentChunk st2) = List.length (currentChunk st1)
    /\ finalChunks st2 = finalChunks st1
    /\ nestedUnder chain n2 (currentChunk st2).
Proof.
  intros Hchain Hne H1 Hfit.
  pose proof (placeNormal_nested byteLength _ _ _ _ _ _ Hchain H1) as Hnested.
  destruct (appendUnder_again chain n1 (clone n2) (currentChunk st1) Hchain Hnested)
    as (kids' & Happ & Hnest' & Hlen).
  unfold placeNormal.
  assert (Hover : negb (size =? 0) && (size <? currentChunkSize st1 + byteLength n2) = false).
  { destruct Hfit as [-> | Hfit]; [reflexivity|].
    replace (size <? currentChunkSize st1 + byteLength n2) with false
      by (symmetry; apply Nat.ltb_ge; exact Hfit).
    apply andb_false_r. }
  rewrite Hover. cbn [andb].
  replace (0 <? List.length chain) with true
    by (destruct chain; [contradiction | reflexivity]).
  rewrite Happ. cbn [bind].
  eexists. split; [reflexivity|]. simpl.
  split; [lia|]. split; [exact (Hlen Hne)|]. split; [reflexivity | exact Hnest'].
Qed.

(** *** No empty block is made *)

Lemma forallb_noEmptyBlock_snoc kids n :
  forallb noEmptyBlock kids = true ->
  noEmptyBlock n = true ->
  forallb noEmptyBlock (kids ++ [n]) = true.
Proof. intros Hk Hn. rewrite forallb_snoc, Hk, Hn. reflexivity. Qed.

Lemma noEmptyBlock_block nm pr ks :
  ks <> [] -> forallb noEmptyBlock ks = true ->
  noEmptyBlock (AtRule nm pr (Some ks)) = true.
Proof.
  intros Hne Hks. cbn [noEmptyBlock]. rewrite Hks.
  destruct ks; [contradiction | reflexivity].
Qed.

Lemma appendUnder_noEmptyBlock chain n : forall kids kids' d,
  Forall chainable chain ->
  forallb noEmptyBlock kids = true ->
  noEmptyBlock n = true ->
  appendUnder byteLength chain n kids = Some (kids', d) ->
  forallb noEmptyBlock kids' = true.
Proof.
  induction chain as [|p rest IH]; intros kids kids' d Hchain Hkids Hn H; simpl in H.
  - injection H as <- _. apply forallb_noEmptyBlock_snoc; assumption.
  - inversion Hchain as [|? ? Hp Hrest]; subst.
    destruct p as [|nmp prp bodyp| |]; cbn [chainable] in Hp; try contradiction.
    assert (Hnew : forall r,
               ('(ks', d) <- appendUnder byteLength rest n [] ;;
                Some (kids ++ [withNodes (AtRule nmp prp bodyp) ks'],
                      byteLength (shellOf (AtRule nmp prp bodyp)) + d)) = Some r ->
               forallb noEmptyBlock (fst r) = true).
    { intros r Hr. apply bind_Some in Hr as ([ks' d'] & Hrec & Hr).
      injection Hr as <-. cbn [fst withNodes].
      apply forallb_noEmptyBlock_snoc; [exact Hkids|].
      apply noEmptyBlock_block.
      - exact (appendUnder_nonempty byteLength _ _ _ _ _ Hrec).
      - exact (IH [] _ _ Hrest eq_refl Hn Hrec). }
    destruct (unsnoc kids) as [[init lastNode]|] eqn:Hlast; [|exact (Hnew _ H)].
    destruct lastNode as [|nm pr body| |]; try exact (Hnew _ H).
    destruct (sameAtRule (AtRule nm pr body) (AtRule nmp prp bodyp)); [|exact (Hnew _ H)].
    apply unsnoc_Some in Hlast as ->.
    rewrite forallb_snoc in Hkids. apply andb_prop in Hkids as [Hinit Hlast].
    destruct body as [ks|].
    + apply bind_Some in H as ([ks' d'] & Hrec & H). injection H as <- _.
      cbn [noEmptyBlock] in Hlast. apply andb_prop in Hlast as [_ Hks].
      apply forallb_noEmptyBlock_snoc; [exact Hinit|].
      apply noEmptyBlock_block.
      * exact (appendUnder_nonempty byteLength _ _ _ _ _ Hrec).
      * exact (IH _ _ _ Hrest Hks Hn Hrec).
    + destruct rest; [|discriminate]. injection H as <- _.
      apply forallb_noEmptyBlock_snoc; [exact Hinit|].
      apply noEmptyBlock_block; [discriminate|]. simpl. rewrite Hn. reflexivity.
Qed.

Lemma wrapFresh_noEmptyBlock chain n :
  Forall chainable chain ->
  noEmptyBlock n = true ->
  noEmptyBlock (fst (wrapFresh byteLength chain n)) = true.
Proof.
  intros Hchain Hn. induction Hchain as [|p rest Hp _ IH]; simpl; [exact Hn|].
  destruct (wrapFresh byteLength rest n) as [inner d]. simpl in *.
  destruct p as [|nm pr body| |]; cbn [chainable] in Hp; try contradiction.
  cbn [withNodes]. apply noEmptyBlock_block; [discriminate|].
  simpl. rewrite IH. reflexivity.
Qed.

Lemma noEmptyBlock_flush (st s : state) :
  s = st \/ s = startNewChunk st ->
  Forall (fun c => forallb noEmptyBlock c = true) (finalChunks st) ->
  forallb noEmptyBlock (currentChunk st) = true ->
  Forall (fun c => forallb noEmptyBlock c = true) (finalChunks s)
  /\ forallb noEmptyBlock (currentChunk s) = true.
Proof.
  intros [-> | ->] Hfinal Hcur; [auto|].
  unfold startNewChunk. simpl. split; [|reflexivity].
  destruct (0 <? List.length (currentChunk st)); [|exact Hfinal].
  apply Forall_app. split; [exact Hfinal | constructor; [exact Hcur | constructor]].
Qed.

Lemma addNode_noEmptyBlock size n : forall chain st st',
  Forall chainable chain ->
  noEmptyBlock n = true ->
  Forall (fun c => forallb noEmptyBlock c = true) (finalChunks st) ->
  forallb noEmptyBlock (currentChunk st) = true ->
  addNode byteLength size n chain st = Some st' ->
  Forall (fun c => forallb noEmptyBlock c = true) (finalChunks st')
  /\ forallb noEmptyBlock (currentChunk st') = true.
Proof.
  induction n as [sels ks _|nm pr ks IH|nm pr|p v|t] using node_nested_ind;
    intros chain st st' Hchain Hn Hfinal Hcur H;
    rewrite addNode_unfold in H; cbv zeta in H;
    match type of H with
    | context [warnOversize byteLength size ?m (logVisit ?m st)] =>
        assert (E : finalChunks (warnOversize byteLength size m (logVisit m st))
                    = finalChunks st
                    /\ currentChunk (warnOversize byteLength size m (logVisit m st))
                       = currentChunk st)
          by (unfold warnOversize;
              destruct (negb (size =? 0) && (size <? byteLength m)); auto);
        destruct E as [Ef Ec]; rewrite <- Ef in Hfinal; rewrite <- Ec in Hcur;
        clear Ef Ec;
        set (st1 := warnOversize byteLength size m (logVisit m st)) in *;
        clearbody st1; clear st
    end.
  all: assert (Hnormal : forall m proj,
                 noEmptyBlock m = true ->
                 placeNormal byteLength size m chain proj st1 = Some st' ->
                 Forall (fun c => forallb noEmptyBlock c = true) (finalChunks st')
                 /\ forallb noEmptyBlock (currentChunk st') = true).
  all: try (intros m proj Hm Hplace; unfold placeNormal in Hplace;
            set (s := if negb (size =? 0) && (size <? proj)
                         && (0 <? List.length (currentChunk st1))
                      then startNewChunk st1 else st1) in Hplace;
            assert (Hs : s = st1 \/ s = startNewChunk st1)
              by (unfold s; destruct (negb (size =? 0) && (size <? proj)
                                      && (0 <? List.length (currentChunk st1))); auto);
            destruct (noEmptyBlock_flush st1 s Hs Hfinal Hcur) as [Hf Hc];
            clearbody s;
            destruct (0 <? List.length chain);
            [ apply bind_Some in Hplace as ([chunk d] & Happ & Hplace);
              injection Hplace as <-; simpl; split; [exact Hf|];
              exact (appendUnder_noEmptyBlock _ _ _ _ _ Hchain Hc Hm Happ)
            | injection Hplace as <-; simpl; split; [exact Hf|];
              apply forallb_noEmptyBlock_snoc; assumption ]).
  all: try (eapply Hnormal; [|exact H]; reflexivity).
  destruct ((0 <? List.length ks) && negb (size =? 0)
            && (size <? currentChunkSize st1 + byteLength (AtRule nm pr (Some ks))));
    [|eapply Hnormal; [exact Hn | exact H]].
  destruct (includes nonSplittableAtRules nm) eqn:Hna.
  { injection H as <-. unfold placeAtomic.
    set (s := if 0 <? List.length (currentChunk st1) then startNewChunk st1 else st1).
    assert (Hs : s = st1 \/ s = startNewChunk st1)
      by (unfold s; destruct (0 <? List.length (currentChunk st1)); auto).
    destruct (noEmptyBlock_flush st1 s Hs Hfinal Hcur) as [Hf Hc]. clearbody s.
    destruct (0 <? List.length chain).
    - pose proof (wrapFresh_noEmptyBlock chain (clone (AtRule nm pr (Some ks))) Hchain Hn) as Hw.
      destruct (wrapFresh byteLength chain (clone (AtRule nm pr (Some ks)))) as [outer d].
      simpl. split; [exact Hf|]. apply forallb_noEmptyBlock_snoc; assumption.
    - simpl. split; [exact Hf|]. apply forallb_noEmptyBlock_snoc; assumption. }
  destruct (negb (hasActualContent ks)).
  { injection H as <-. unfold placeOpaque. simpl. split; [exact Hfinal|].
    apply forallb_noEmptyBlock_snoc; assumption. }
  cbn [noEmptyBlock] in Hn. apply andb_prop in Hn as [_ Hks].
  rewrite forallb_forall in Hks.
  apply (forEach_ind _
           (fun s s' =>
              Forall (fun c => forallb noEmptyBlock c = true) (finalChunks s)
              /\ forallb noEmptyBlock (currentChunk s) = true ->
              Forall (fun c => forallb noEmptyBlock c = true) (finalChunks s')
              /\ forallb noEmptyBlock (currentChunk s') = true))
    with (arr := ks) (4 := H); auto.
  rewrite Forall_forall in IH. apply Forall_forall.
  intros child Hin s s' Hrun [Hf Hc].
  apply (IH child Hin (chain ++ [AtRule nm pr (Some ks)]) s s'); auto.
  apply Forall_app. split; [exact Hchain|]. constructor; [exact Hna | constructor].
Qed.

(** X10 -- [Once] makes no empty at-rule block: when the input has none (read
    through at-rule blocks), no chunk has one.  A shell is only made for
    a node that goes into it. *)
Theorem no_empty_block_made size input res :
  forallb noEmptyBlock input = true ->
  Once byteLength size input = Some res ->
  Forall (fun chunk => forallb noEmptyBlock chunk = true) (chunks res).
Proof.
  intros Hinput H. apply Once_Some in H as (st & Hrun & ->). cbn [chunks].
  rewrite forallb_forall in Hinput.
  assert (Hst : Forall (fun c => forallb noEmptyBlock c = true) (finalChunks st)
                /\ forallb noEmptyBlock (currentChunk st) = true).
  { apply (forEach_ind _
             (fun s s' =>
                Forall (fun c => forallb noEmptyBlock c = true) (finalChunks s)
                /\ forallb noEmptyBlock (currentChunk s) = true ->
                Forall (fun c => forallb noEmptyBlock c = true) (finalChunks s')
                /\ forallb noEmptyBlock (currentChunk s') = true))
      with (arr := input) (4 := Hrun); auto.
    - apply Forall_forall. intros n Hin s s' Hn [Hf Hc].
      apply (addNode_noEmptyBlock size n [] s s'); auto. }
  destruct Hst as [Hf Hc].
  exact (proj1 (noEmptyBlock_flush st (startNewChunk st) (or_intror eq_refl) Hf Hc)).
Qed.

(** *** Which nodes are visited *)

Lemma forEach_addNode_visited_mono size input chain st st' :
  forEach (fun n st => addNode byteLength size n chain st) input st = Some st' ->
  incl (visited st) (visited st').
Proof.
  apply (forEach_ind _ (fun s s' => incl (visited s) (visited s'))).
  - intro s. apply incl_refl.
  - intros s1 s2 s3. apply incl_tran.
  - apply Forall_forall. intros n _ s s'. apply addNode_visited_mono.
Qed.

Lemma forEach_visits_closed size chain arr :
  Forall (fun n => forall st st',
              addNode byteLength size n chain st = Some st' ->
              forall v, In v (visited st') ->
                        In v (visited st) \/ v = n
                        \/ exists p, In p (visited st') /\ splittable p = true
                                      /\ In v (childrenOf p)) arr ->
  forall st st',
    forEach (fun n st => addNode byteLength size n chain st) arr st = Some st' ->
    forall v, In v (visited st') ->
              In v (visited st) \/ In v arr
              \/ exists p, In p (visited st') /\ splittable p = true
                            /\ In v (childrenOf p).
Proof.
  induction 1 as [|x rest Hx _ IH]; intros st st' H v Hv; simpl in H.
  - injection H as <-. auto.
  - apply bind_Some in H as (s1 & H1 & H2).
    destruct (IH _ _ H2 v Hv) as [Hin|[Hin|Hin]].
    + destruct (Hx _ _ H1 v Hin) as [Hold|[->|(p & Hp & Hsp & Hc)]].
      * auto.
      * right. left. left. reflexivity.
      * right. right. exists p. split; [|auto].
        exact (forEach_addNode_visited_mono _ _ _ _ _ H2 p Hp).
    + right. left. right. exact Hin.
    + auto.
Qed.

Lemma addNode_visits_closed size n : forall chain st st',
  addNode byteLength size n chain st = Some st' ->
  forall v, In v (visited st') ->
            In v (visited st) \/ v = n
            \/ exists p, In p (visited st') /\ splittable p = true
                          /\ In v (childrenOf p).
Proof.
  induction n as [sels ks _|nm pr ks IH|nm pr|p v|t] using node_nested_ind;
    intros chain st st' H w Hw;
    pose proof (addNode_visits_node byteLength _ _ _ _ _ H) as Hself;
    apply addNode_outcome in H;
    match type of H with
    | outcome _ _ ?m _ _ _ =>
        destruct (warnOversize_log byteLength size m st) as [_ Ev]
    end;
    destruct H as [? ? ? E ? ->|? ? ? E ? ? ? ? ? ->|? ? ? E Hna Hc ? ? H|? H];
    try discriminate E;
    try (apply placeNormal_log in H as [_ Ep]; rewrite Ep, Ev in Hw;
         apply in_app_or in Hw as [Hw|[<-|[]]]; auto).
  - rewrite (proj2 (placeAtomic_log byteLength _ _ _)), Ev in Hw.
    apply in_app_or in Hw as [Hw|[<-|[]]]; auto.
  - unfold placeOpaque in Hw. simpl in Hw. rewrite Ev in Hw.
    apply in_app_or in Hw as [Hw|[<-|[]]]; auto.
  - injection E as <- <- <-.
    destruct (forEach_visits_closed size (chain ++ [AtRule nm pr (Some ks)]) ks)
      with (st := warnOversize byteLength size (AtRule nm pr (Some ks))
                               (logVisit (AtRule nm pr (Some ks)) st))
           (st' := st') (v := w)
      as [Hin|[Hin|Hin]]; auto.
    + eapply Forall_impl; [|exact IH]. intros child Hchild. apply Hchild.
    + rewrite Ev in Hin. apply in_app_or in Hin as [Hin|[<-|[]]]; auto.
    + right. right. exists (AtRule nm pr (Some ks)).
      split; [exact Hself|]. split; [|exact Hin].
      unfold splittable. rewrite Hna, Hc. reflexivity.
Qed.

(** X11 -- [addNode] is only ever called on a top-level node or on a child of
    an at-rule it was called on and could descend into: never on a child
    of a rule, of an atomic at-rule or of an at-rule without actual
    content. *)
Theorem visits_follow_splits size input res :
  Once byteLength size input = Some res ->
  forall v, In v (result_visited res) ->
            In v input
            \/ exists p, In p (result_visited res) /\ splittable p = true
                          /\ In v (childrenOf p).
Proof.
  intro H. apply Once_Some in H as (st & Hrun & ->). cbn [result_visited].
  intros v Hv.
  destruct (forEach_visits_closed size [] input) with (st := initialState)
                                                      (st' := st) (v := v)
    as [Hin|[Hin|Hin]]; auto.
  - apply Forall_forall. intros n _. apply addNode_visits_closed.
  - destruct Hin.
Qed.

(** *** Chunks are closed only when full *)

Lemma topBytes_snoc chunk n :
  topBytes byteLength (chunk ++ [n]) = topBytes byteLength chunk + byteLength n.
Proof. unfold topBytes. rewrite map_app, list_sum_app. simpl. lia. Qed.

Lemma filledGreedily_extend size cs c n :
  c <> [] ->
  filledGreedily byteLength size (cs ++ [c]) = true ->
  filledGreedily byteLength size (cs ++ [c ++ [n]]) = true.
Proof.
  intro Hc. induction cs as [|a cs' IH]; intro H.
  - reflexivity.
  - cbn [app filledGreedily] in *. apply andb_prop in H as [Hhead Hrest].
    rewrite (IH Hrest), andb_true_r.
    destruct cs' as [|b cs'']; [|exact Hhead].
    destruct c as [|x c0]; [contradiction Hc; reflexivity | exact Hhead].
Qed.

Lemma filledGreedily_close size cs c n :
  c <> [] ->
  size < topBytes byteLength c + byteLength n ->
  filledGreedily byteLength size (cs ++ [c]) = true ->
  filledGreedily byteLength size ((cs ++ [c]) ++ [[n]]) = true.
Proof.
  intros Hc Hover. induction cs as [|a cs' IH]; intro H.
  - cbn [app filledGreedily]. rewrite andb_true_r. apply Nat.ltb_lt. exact Hover.
  - cbn [app filledGreedily] in *. apply andb_prop in H as [Hhead Hrest].
    rewrite (IH Hrest), andb_true_r.
    destruct cs' as [|b cs'']; [|exact Hhead].
    destruct c as [|x c0]; [contradiction Hc; reflexivity | exact Hhead].
Qed.

Lemma greedyInv_append size n st :
  greedyInv byteLength size st ->
  greedyInv byteLength size
    (setChunk st (currentChunk st ++ [clone n]) (currentChunkSize st + byteLength n)).
Proof.
  intros (Hsz & Hg & Hnil). unfold greedyInv, clone. cbn [setChunk currentChunk
    currentChunkSize finalChunks].
  split; [rewrite topBytes_snoc; lia|]. split.
  - destruct (currentChunk st) as [|x c0] eqn:E.
    + rewrite (Hnil eq_refl). reflexivity.
    + apply filledGreedily_extend; [discriminate | exact Hg].
  - intro H. destruct (currentChunk st); discriminate H.
Qed.

Lemma greedyInv_close size n st :
  greedyInv byteLength size st ->
  currentChunk st <> [] ->
  size < currentChunkSize st + byteLength n ->
  greedyInv byteLength size
    (setChunk (startNewChunk st)
              (currentChunk (startNewChunk st) ++ [clone n])
              (currentChunkSize (startNewChunk st) + byteLength n)).
Proof.
  intros (Hsz & Hg & Hnil) Hne Hover. unfold greedyInv, clone, startNewChunk.
  cbn [setChunk currentChunk currentChunkSize finalChunks app].
  replace (0 <? List.length (currentChunk st)) with true
    by (destruct (currentChunk st); [contradiction Hne|]; reflexivity).
  split; [unfold topBytes; simpl; lia|]. split.
  - apply filledGreedily_close; [exact Hne | lia | exact Hg].
  - discriminate.
Qed.

Lemma addNode_greedy size n st st' :
  splittable n = false ->
  greedyInv byteLength size st ->
  addNode byteLength size n [] st = Some st' ->
  greedyInv byteLength size st'.
Proof.
  intros Hflat Hinv. rewrite addNode_unfold. cbv zeta.
  set (st1 := warnOversize byteLength size n (logVisit n st)).
  assert (Hinv1 : greedyInv byteLength size st1).
  { unfold st1, warnOversize.
    destruct (negb (size =? 0) && (size <? byteLength n)); exact Hinv. }
  clearbody st1. clear Hinv.
  assert (Hnormal :
            placeNormal byteLength size n [] (currentChunkSize st1 + byteLength n) st1
            = Some st' -> greedyInv byteLength size st').
  { unfold placeNormal.
    change (0 <? List.length (@nil node)) with false. cbv iota.
    destruct (negb (size =? 0) && (size <? currentChunkSize st1 + byteLength n)
              && (0 <? List.length (currentChunk st1))) eqn:Hflush;
      intro H; injection H as <-.
    - apply andb_prop in Hflush as [Hflush Hlen].
      apply andb_prop in Hflush as [_ Hover]. apply Nat.ltb_lt in Hover.
      apply greedyInv_close; [exact Hinv1 | | exact Hover].
      intro E. rewrite E in Hlen. discriminate Hlen.
    - apply greedyInv_append. exact Hinv1. }
  destruct n as [sels ks|nm pr [kids|]|p v|t]; try exact Hnormal.
  destruct ((0 <? List.length kids) && negb (size =? 0)
            && (size <? currentChunkSize st1 + byteLength (AtRule nm pr (Some kids))))
    eqn:Hcond; [|exact Hnormal].
  apply andb_prop in Hcond as [_ Hover]. apply Nat.ltb_lt in Hover.
  unfold splittable in Hflat.
  destruct (includes nonSplittableAtRules nm).
  - intro H. injection H as <-. unfold placeAtomic.
    change (0 <? List.length (@nil node)) with false. cbv iota.
    destruct (0 <? List.length (currentChunk st1)) eqn:Hlen.
    + apply greedyInv_close; [exact Hinv1 | | exact Hover].
      intro E. rewrite E in Hlen. discriminate Hlen.
    + apply greedyInv_append. exact Hinv1.
  - cbn [negb andb] in Hflat. rewrite Hflat. cbn [negb].
    intro H. injection H as <-. unfold placeOpaque.
    apply greedyInv_append. exact Hinv1.
Qed.

(** X7 -- for an input that is never descended into, a chunk is closed only
    when the next node does not fit: the bytes of the top-level nodes of
    a chunk and of the first node of the next chunk are together more
    than the limit. *)
Theorem chunk_closed_only_when_full size input res :
  Forall (fun n => splittable n = false) input ->
  Once byteLength size input = Some res ->
  filledGreedily byteLength size (chunks res) = true.
Proof.
  intros Hflat H. apply Once_Some in H as (st & Hrun & ->). cbn [chunks].
  assert (Hst : greedyInv byteLength size st).
  { apply (forEach_ind _
             (fun s s' => greedyInv byteLength size s -> greedyInv byteLength size s'))
      with (arr := input) (4 := Hrun); auto.
    - eapply Forall_impl; [|exact Hflat]. intros n Hn s s' Hs Hinv.
      exact (addNode_greedy size n s s' Hn Hinv Hs).
    - split; [reflexivity|]. split; [reflexivity|]. reflexivity. }
  destruct Hst as (_ & Hg & Hnil). unfold startNewChunk. cbn [finalChunks].
  destruct (currentChunk st) as [|x c0] eqn:E.
  - rewrite (Hnil eq_refl). reflexivity.
  - exact Hg.
Qed.

(** *** Leaves *)

(** X2 -- when at-rule names are used consistently, [Once] never throws and
    the leaves of the chunks, at-rule statements included, are the
    leaves of the input in document order. *)
Theorem leaves_kept_in_order blk size input :
  forallb (disciplined blk) input = true ->
  exists res,
    Once byteLength size input = Some res
    /\ flat_map (flat_map leaves) (chunks res) = flat_map leaves input.
Proof.
  intro Hnames.
  destruct (lossless_under_name_discipline byteLength blk size input Hnames)
    as (res & Hres & Hleaves).
  exists res. split; [exact Hres | exact Hleaves].
Qed.

End Further.

(** ** The serialiser of the examples *)

Lemma string_length_append (s1 s2 : string) :
  String.length (s1 ++ s2)%string = String.length s1 + String.length s2.
Proof.
  induction s1 as [|c s1 IH]; simpl; [reflexivity|].
  rewrite IH. reflexivity.
Qed.

Lemma stringify_semicolon (b : bool) (n : node) :
  String.length (stringify false n) <= String.length (stringify b n).
Proof.
  destruct n as [sels ks|nm pr [ks|]|p v|t]; destruct b; try apply le_n;
    cbn [stringify]; rewrite !string_length_append; simpl; lia.
Qed.

(** The serialisation of a root contains that of each of its nodes. *)
Lemma minified_children (r : root) :
  list_sum (map minifiedByteLength r) <= minifiedRootByteLength r.
Proof.
  unfold minifiedRootByteLength, minifiedByteLength, toString.
  induction r as [|k ks IH]; simpl; [apply le_n|].
  rewrite string_length_append.
  pose proof (stringify_semicolon (existsb (fun c => negb (isComment c)) ks) k).
  lia.
Qed.

(** The serialisation of an at-rule block contains that of each child. *)
Lemma minified_block_contains_children nm pr ks :
  list_sum (map minifiedByteLength ks) <= minifiedByteLength (AtRule nm pr (Some ks)).
Proof.
  eapply Nat.le_trans; [apply minified_children|].
  unfold minifiedRootByteLength, minifiedByteLength, toString.
  change (stringify false (AtRule nm pr (Some ks)))
    with (atHeader nm pr ++ "{" ++ stringifyBody ks ++ "}")%string.
  rewrite !string_length_append. lia.
Qed.

(** ** The partitioner at concrete stylesheets *)

Import Examples.

(** *** Flushing (C10) *)

Lemma no_empty_chunk_witness :
  exists res,
    Once minifiedByteLength 5 [a_red; b_red] = Some res
    /\ nonEmptyChunks (chunks res).
Proof.
  eexists. split; [reflexivity|].
  apply (proj1 (proj2 (no_empty_chunk minifiedByteLength)) 5 [a_red; b_red]).
  reflexivity.
Defined.

(** *** Atomic at-rules (C3) *)


(** *** The input root after the run (C4) *)



(** *** The limit 0 (C5) *)



(** *** Warnings (C7) *)

(** [.a{color:red}] is 13 bytes, more than the limit 0, and its visit
    reports nothing. *)
Lemma no_warning_under_limit_zero :
  exists res,
    Once minifiedByteLength 0 [a_red] = Some res
    /\ In a_red (result_visited res)
    /\ 0 < minifiedByteLength a_red
    /\ result_warnings res = [].
Proof.
  eexists. split; [reflexivity|]. split; [left; reflexivity|].
  split; [vm_compute; lia | reflexivity].
Qed.

Lemma one_warning_per_oversize_visit_witness :
  exists res,
    Once minifiedByteLength 5 [a_red; b_red] = Some res
    /\ result_warnings res
       = map (oversizeWarning minifiedByteLength 5)
             (filter (exceeds minifiedByteLength 5) (result_visited res)).
Proof.
  eexists. split; [reflexivity|].
  apply (proj1 (one_warning_per_oversize_visit minifiedByteLength 5 [a_red; b_red])).
  - reflexivity.
  - discriminate.
Defined.

Example warning_text_a_red :
  option_map (fun res => map warning_text (result_warnings res))
             (Once minifiedByteLength 5 [a_red])
  = Some ["starting with selector '.a' has an estimated size of 13 bytes, exceeding the 5 byte limit and cannot be split."].
Proof. reflexivity. Qed.

(** *** Inputs within the limit (C8) *)

(** The empty stylesheet is within any limit and gives no chunk. *)
Lemma empty_input_within_limit_no_chunk :
  minifiedRootByteLength [] <= 100
  /\ exists res,
       Once minifiedByteLength 100 [] = Some res /\ List.length (chunks res) = 0.
Proof.
  split; [vm_compute; lia|]. eexists. split; reflexivity.
Qed.

Lemma within_limit_single_chunk_witness :
  minifiedRootByteLength [a_red; b_red] <= 100
  /\ exists res,
       Once minifiedByteLength 100 [a_red; b_red] = Some res
       /\ result_warnings res = []
       /\ ([a_red; b_red] <> [] -> chunks res = [[a_red; b_red]])
       /\ ([a_red; b_red] = [] -> chunks res = []).
Proof.
  assert (H : minifiedRootByteLength [a_red; b_red] <= 100) by (vm_compute; lia).
  split; [exact H|].
  exact (within_limit_single_chunk minifiedByteLength minifiedRootByteLength
                                   minified_children 100 [a_red; b_red] H).
Defined.

(** *** The budget (C2) *)

(** [.a{color:red}@media screen{.b{color:red}.c{c:rrr}}] under the limit
    27: the first chunk holds two rules of 13 bytes and the shell made
    for the second, 41 bytes in all.  [@import x;.a{color:red}] under
    the limit 22: the nodes are 9 and 13 bytes and share a chunk, which
    is printed with the semicolon between them, 23 bytes. *)
Lemma chunk_larger_than_limit :
  (exists res,
      Once minifiedByteLength 27 [a_red; media_b_c] = Some res
      /\ chunks res = [[a_red; AtRule "media" "screen" (Some [b_red])];
                       [AtRule "media" "screen" (Some [c_rrr])]]
      /\ minifiedByteLength a_red = 13
      /\ minifiedByteLength b_red = 13
      /\ minifiedRootByteLength [a_red; AtRule "media" "screen" (Some [b_red])] = 41)
  /\ (exists res,
         Once minifiedByteLength 22 [import_x; a_red] = Some res
         /\ chunks res = [[import_x; a_red]]
         /\ minifiedByteLength import_x = 9
         /\ minifiedByteLength a_red = 13
         /\ minifiedRootByteLength [import_x; a_red] = 23).
Proof.
  split; eexists; (split; [reflexivity|]); repeat split.
Qed.

Lemma chunk_units_within_budget_witness :
  exists res,
    Once minifiedByteLength 27 [a_red; media_b_c] = Some res
    /\ Forall (withinBudget minifiedByteLength 27) (chunks res).
Proof.
  eexists. split; [reflexivity|].
  apply (proj1 (chunk_units_within_budget
                  minifiedByteLength minified_block_contains_children
                  27 [a_red; media_b_c]
                  (fun E : 27 = 0 => O_S 26 (eq_sym E)) eq_refl)).
  reflexivity.
Defined.

(** *** Chunk counts under two limits (C9) *)

(** [@media x{.a{c:r}}@media x{.b{c:r}}.c{c:rrr}]: under the limit 33 the
    second [@media x] overflows and is descended into, its rule joins the
    first [@media x] and the last rule still fits: one chunk; under 34
    the second [@media x] fits whole and the last rule no longer does:
    two chunks.  And the limit 0 gives one chunk where 5 gives two. *)
Lemma smaller_limit_fewer_chunks :
  (exists ra rb,
      Once minifiedByteLength 33 [media_x_a; media_x_b; c_rrr] = Some ra
      /\ Once minifiedByteLength 34 [media_x_a; media_x_b; c_rrr] = Some rb
      /\ 33 < 34
      /\ List.length (chunks ra) = 1 /\ List.length (chunks rb) = 2)
  /\ (exists ra rb,
         Once minifiedByteLength 0 [a_red; b_red] = Some ra
         /\ Once minifiedByteLength 5 [a_red; b_red] = Some rb
         /\ 0 < 5
         /\ List.length (chunks ra) = 1 /\ List.length (chunks rb) = 2).
Proof.
  split; do 2 eexists; (split; [reflexivity|]); (split; [reflexivity|]);
    (split; [lia|]); split; reflexivity.
Qed.

Lemma chunk_count_monotone_witness :
  exists ra rb,
    Once minifiedByteLength 5 [a_red; b_red; keyframes_k] = Some ra
    /\ Once minifiedByteLength 30 [a_red; b_red; keyframes_k] = Some rb
    /\ List.length (chunks rb) <= List.length (chunks ra).
Proof.
  apply (chunk_count_monotone minifiedByteLength 5 30 [a_red; b_red; keyframes_k]).
  - lia.
  - lia.
  - repeat constructor.
Defined.

(** *** Where the code departs from the specification *)

(** C1 -- [@layer base;@layer base{.a{color:red}.b{color:red}}] under the
    limit 30.  The block overflows and is descended into; for its first
    rule the loop over the parent chain takes the last node of the chunk,
    the statement [@layer base], as the existing shell, and appends the
    rule into it.  The chunks are [@layer base{.a{color:red}}] and
    [@layer base{.b{color:red}}]: the statement, a leaf of the input, is
    in no chunk.  With one more level,
    [@layer base;@layer base{@media print{.a{color:red}.b{color:red}}}]
    under the limit 40, the loop reads [nodes.length] of the statement
    and [Once] throws. *)
Theorem statement_taken_as_shell :
  (exists res,
      Once minifiedByteLength 30 [layer_statement; layer_block] = Some res
      /\ chunks res = [[AtRule "layer" "base" (Some [a_red])];
                       [AtRule "layer" "base" (Some [b_red])]]
      /\ flat_map (flat_map leaves) (chunks res) = [a_red; b_red]
      /\ flat_map leaves [layer_statement; layer_block]
         = [layer_statement; a_red; b_red])
  /\ Once minifiedByteLength 40 [layer_statement; layer_media] = None.
Proof.
  split; [|reflexivity].
  eexists. split; [reflexivity|]. repeat split.
Qed.

(** [.a{color:red}@property --c{inherits:true}] under the limit 30: the
    rule is 13 bytes and the at-rule 28, each within the limit.  The
    at-rule overflows the chunk holding the rule, has no actual content,
    and is appended without starting a new chunk: one chunk of 41 bytes
    with two nodes and no shell. *)
Lemma opaque_at_rule_overflows_chunk :
  exists res,
    Once minifiedByteLength 30 [a_red; property_block] = Some res
    /\ chunks res = [[a_red; property_block]]
    /\ minifiedByteLength a_red = 13
    /\ minifiedByteLength property_block = 28
    /\ minifiedRootByteLength [a_red; property_block] = 41.
Proof.
  eexists. split; [reflexivity|]. repeat split.
Qed.

(** C6 -- [@media screen{.a{color:red}@viewport{width:100px}}] under the
    limit 30: the [@media] block is descended into, so its children are
    placed with the parent chain [[@media screen]].  The rule goes under
    a shell of it; [@viewport], which overflows and has no actual
    content, is appended to the chunk's root, outside any [@media]. *)
Theorem opaque_at_rule_loses_parent_chain :
  exists res chunk,
    Once minifiedByteLength 30 [media_screen] = Some res
    /\ chunks res = [chunk]
    /\ chunk = [AtRule "media" "screen" (Some [a_red]); viewport_block]
    /\ result_visited res = [media_screen; a_red; viewport_block]
    /\ ~ nestedUnder [media_screen] viewport_block chunk.
Proof.
  do 2 eexists. split; [reflexivity|]. split; [reflexivity|].
  split; [reflexivity|]. split; [reflexivity|].
  intros (init & nm & pr & ks & E & Hsame & _).
  change [AtRule "media" "screen" (Some [a_red]); viewport_block]
    with ([AtRule "media" "screen" (Some [a_red])] ++ [viewport_block]) in E.
  apply app_inj_tail in E as [_ E]. rewrite <- E in Hsame. discriminate Hsame.
Qed.

(** *** The scenarios of the specification *)

(** Two rules and a limit of their combined size plus 10: one chunk with
    both, in order. *)
Example scenario_two_rules_fit :
  option_map (@chunks) (Once minifiedByteLength (13 + 14 + 10) [a_red; b_blue])
  = Some [[a_red; b_blue]].
Proof. reflexivity. Qed.

(** The same rules and the limit 5: a chunk and a warning for each. *)
Example scenario_two_rules_split :
  option_map (fun res => (chunks res, map warn_node (result_warnings res)))
             (Once minifiedByteLength 5 [a_red; b_blue])
  = Some ([[a_red]; [b_blue]], [a_red; b_blue]).
Proof. reflexivity. Qed.

(** A keyframes block followed by [.x{}] under the limit 1: the block is
    whole in the first chunk and reported; the rule is in the next. *)
Example scenario_keyframes_whole :
  option_map (fun res => (chunks res, map warn_node (result_warnings res)))
             (Once minifiedByteLength 1 [keyframes_k; x_empty])
  = Some ([[keyframes_k]; [x_empty]], [keyframes_k; x_empty]).
Proof. reflexivity. Qed.

(** A conditional group of four rules under the limit 80: two chunks,
    each with its rules under a shell of the group. *)
Example scenario_group_split :
  option_map (@chunks) (Once minifiedByteLength 80 [media_four])
  = Some [[AtRule "media" "screen" (Some [class_n "1" "14"; class_n "2" "16"])];
          [AtRule "media" "screen" (Some [class_n "3" "18"; class_n "4" "20"])]].
Proof. reflexivity. Qed.

(** Two levels of nesting around one rule under a large limit: one chunk,
    the nesting as it was. *)
Example scenario_nesting_kept :
  option_map (@chunks) (Once minifiedByteLength (sizeOption None) [media_supports])
  = Some [[media_supports]].
Proof. reflexivity. Qed.

(** *** The further properties at concrete stylesheets *)

Lemma solid_content_kept_witness :
  exists res,
    Once minifiedByteLength 20 [media_print; import_x; c_rrr] = Some res
    /\ flat_map (flat_map solid) (chunks res)
       = flat_map solid [media_print; import_x; c_rrr].
Proof.
  eexists. split; [vm_compute; reflexivity|].
  apply (solid_content_kept minifiedByteLength 20 [media_print; import_x; c_rrr]).
  vm_compute. reflexivity.
Defined.

Lemma leaves_kept_in_order_witness :
  exists res,
    Once minifiedByteLength 20 [import_x; media_print; c_rrr] = Some res
    /\ flat_map (flat_map leaves) (chunks res)
       = flat_map leaves [import_x; media_print; c_rrr].
Proof.
  apply (leaves_kept_in_order minifiedByteLength
           (fun nm => negb (String.eqb nm "import")) 20
           [import_x; media_print; c_rrr]).
  vm_compute. reflexivity.
Defined.

Lemma no_chunk_iff_no_node_witness :
  exists res,
    Once minifiedByteLength 5 [a_red; b_red] = Some res
    /\ (chunks res = [] <-> [a_red; b_red] = []).
Proof.
  eexists. split; [vm_compute; reflexivity|].
  apply (no_chunk_iff_no_node minifiedByteLength 5 [a_red; b_red]).
  vm_compute. reflexivity.
Defined.

Lemma chunk_count_bounded_witness :
  exists res,
    Once minifiedByteLength 5 [a_red; b_red; keyframes_k] = Some res
    /\ List.length (chunks res) <= list_sum (map visitable [a_red; b_red; keyframes_k])
    /\ List.length (chunks res) <= List.length [a_red; b_red; keyframes_k].
Proof.
  eexists. split; [vm_compute; reflexivity|].
  destruct (chunk_count_bounded minifiedByteLength 5 [a_red; b_red; keyframes_k]
                                _ ltac:(vm_compute; reflexivity)) as [Hcalls Hflat].
  split; [exact Hcalls|]. apply Hflat. repeat constructor.
Defined.

Lemma finished_chunks_stable_witness :
  exists r2,
    Once minifiedByteLength 30 ([a_red; b_red] ++ [c_rrr; media_print]) = Some r2
    /\ exists r1 more w,
         Once minifiedByteLength 30 [a_red; b_red] = Some r1
         /\ chunks r2 = removelast (chunks r1) ++ more
         /\ result_warnings r2 = result_warnings r1 ++ w.
Proof.
  eexists. split; [vm_compute; reflexivity|].
  apply (finished_chunks_stable minifiedByteLength 30 [a_red; b_red]
                                [c_rrr; media_print]).
  vm_compute. reflexivity.
Defined.

Lemma flat_input_sliced_witness :
  exists res,
    Once minifiedByteLength 20 [a_red; keyframes_k; import_x; b_red] = Some res
    /\ List.concat (chunks res) = [a_red; keyframes_k; import_x; b_red].
Proof.
  apply (flat_input_sliced minifiedByteLength 20
                           [a_red; keyframes_k; import_x; b_red]).
  repeat constructor.
Defined.

Lemma chunk_closed_only_when_full_witness :
  exists res,
    Once minifiedByteLength 30 [a_red; b_red; c_rrr; keyframes_k] = Some res
    /\ filledGreedily minifiedByteLength 30 (chunks res) = true.
Proof.
  eexists. split; [vm_compute; reflexivity|].
  apply (chunk_closed_only_when_full minifiedByteLength 30
                                     [a_red; b_red; c_rrr; keyframes_k]).
  - repeat constructor.
  - vm_compute. reflexivity.
Defined.

Lemma placed_under_parent_chain_witness :
  exists st',
    addNode minifiedByteLength 5 a_red [media_print] initialState = Some st'
    /\ nestedUnder [media_print] a_red (currentChunk st').
Proof.
  eexists. split; [vm_compute; reflexivity|].
  apply (placed_under_parent_chain minifiedByteLength 5 a_red [media_print]
                                   initialState).
  - constructor; [reflexivity | constructor].
  - vm_compute. reflexivity.
  - left. reflexivity.
  - vm_compute. reflexivity.
Defined.

Lemma shells_shared_witness :
  exists st1,
    placeNormal minifiedByteLength 60 a_red [media_print] 13 initialState = Some st1
    /\ exists st2,
         placeNormal minifiedByteLength 60 b_red [media_print]
                     (currentChunkSize st1 + minifiedByteLength b_red) st1
         = Some st2
         /\ currentChunkSize st2 = currentChunkSize st1 + minifiedByteLength b_red
         /\ List.length (currentChunk st2) = List.length (currentChunk st1)
         /\ finalChunks st2 = finalChunks st1
         /\ nestedUnder [media_print] b_red (currentChunk st2).
Proof.
  eexists. split; [vm_compute; reflexivity|].
  apply (shells_shared minifiedByteLength 60 a_red b_red [media_print] 13
                       initialState).
  - constructor; [reflexivity | constructor].
  - discriminate.
  - vm_compute. reflexivity.
  - right. vm_compute. lia.
Defined.

Lemma no_empty_block_made_witness :
  exists res,
    Once minifiedByteLength 20 [media_print; c_rrr] = Some res
    /\ Forall (fun chunk => forallb noEmptyBlock chunk = true) (chunks res).
Proof.
  eexists. split; [vm_compute; reflexivity|].
  apply (no_empty_block_made minifiedByteLength 20 [media_print; c_rrr]).
  - vm_compute. reflexivity.
  - vm_compute. reflexivity.
Defined.

Lemma visits_follow_splits_witness :
  exists res,
    Once minifiedByteLength 20 [media_print; c_rrr] = Some res
    /\ forall v, In v (result_visited res) ->
                 In v [media_print; c_rrr]
                 \/ exists p, In p (result_visited res) /\ splittable p = true
                              /\ In v (childrenOf p).
Proof.
  eexists. split; [vm_compute; reflexivity|].
  apply (visits_follow_splits minifiedByteLength 20 [media_print; c_rrr]).
  vm_compute. reflexivity.
Defined.
